(** * Password generator (script.js): a shallow embedding and its properties

    The page script draws 32-bit values from [window.crypto], turns them
    into unbiased indices by rejection sampling, seeds one character per
    selected class, fills the password up to the requested length under
    the no-duplicate / no-sequential options, shuffles it, and repeats
    until five distinct passwords are shown or 1000 attempts are spent.

    The random source is the only input the script does not control, so
    it is modelled as the list of values that successive calls of
    [crypto.getRandomValues] deliver.  A computation that has consumed
    the whole list while still looping is [Starved]: on an infinite
    source it would still be running. *)

From Stdlib Require Import ZArith Lia Ascii String List.
From stdpp Require Import base decidable option list strings pretty gmap.

Local Open Scope Z_scope.

Set Warnings "-notation-for-abbreviation,-clear-no-such-hyp,-inconsistent-scopes".

(** ** JavaScript numbers, as far as the script uses them *)

Module JS.

(** The numbers of the sampler and of the array indices: integers below
    2^53, on which doubles are exact, or the [NaN] that [%] yields for a
    zero divisor. *)
Inductive number : Type :=
| Num (z : Z)
| NaN.

#[global] Instance number_eq_dec : EqDecision number.
Proof. solve_decision. Defined.

(** [a % b]: remainder with the sign of the dividend, [NaN] for [b = 0]. *)
Definition rem (a b : number) : number :=
  match a, b with
  | Num x, Num y => if decide (y = 0) then NaN else Num (Z.rem x y)
  | _, _ => NaN
  end.

Definition sub (a b : number) : number :=
  match a, b with
  | Num x, Num y => Num (x - y)
  | _, _ => NaN
  end.

(** [a >= b]: any comparison with [NaN] is false. *)
Definition ge (a b : number) : bool :=
  match a, b with
  | Num x, Num y => bool_decide (y ≤ x)
  | _, _ => false
  end.

(** [arr[k]]: [None] stands for [undefined]. *)
Definition read {A : Type} (arr : list A) (k : number) : option A :=
  match k with
  | Num z => if decide (0 ≤ z) then arr !! Z.to_nat z else None
  | NaN => None
  end.

(** What a [Uint32Array] cell holds after a store. *)
Definition Uint32 (z : Z) : Z := z mod 2 ^ 32.

End JS.

Import JS.

(** ** Outcomes of a computation that draws random values *)

(** The two [throw new Error(...)] of the script.  [UndefinedRead] marks
    an array read outside the array: JavaScript would carry [undefined]
    on; the script only indexes an array [a] of non-zero length at
    [getRandomInt(a.length)], and [attempt_reads_defined] shows that no
    run reaches this outcome. *)
Inductive exn : Type :=
| CannotIncludeEachType
| RanOutOfCharacters
| UndefinedRead.

#[global] Instance exn_eq_dec : EqDecision exn.
Proof. solve_decision. Defined.

Definition message (e : exn) : string :=
  match e with
  | CannotIncludeEachType =>
      "Cannot include at least one character from each selected type due to the current settings. Adjust your settings."
  | RanOutOfCharacters =>
      "Ran out of characters to use. Adjust your settings or reduce the password length."
  | UndefinedRead => "undefined"
  end.

Inductive outcome (A : Type) : Type :=
| Ret (a : A) (rest : list Z)
| Raise (e : exn) (rest : list Z)
| Starved.
Arguments Ret {A} a rest.
Arguments Raise {A} e rest.
Arguments Starved {A}.

Definition Rand (A : Type) : Type := list Z → outcome A.

Definition ret {A} (a : A) : Rand A := λ draws, Ret a draws.

Definition raise {A} (e : exn) : Rand A := λ draws, Raise e draws.

Definition bind {A B} (m : Rand A) (k : A → Rand B) : Rand B :=
  λ draws,
    match m draws with
    | Ret a rest => k a rest
    | Raise e rest => Raise e rest
    | Starved => Starved
    end.

Notation "'let*' x ':=' m 'in' k" := (bind m (λ x, k))
  (at level 10, x name, m at level 100, k at level 200).

(** ** getRandomInt *)

Definition maxUint32 : Z := 0xFFFFFFFF.

(** [const limit = maxUint32 - (maxUint32 % max)] *)
Definition limit (max : Z) : number :=
  JS.sub (Num maxUint32) (JS.rem (Num maxUint32) (Num max)).

(** The [do ... while (randomValue >= limit)] loop: each turn takes one
    value from the source. *)
Fixpoint getRandomInt (max : Z) (draws : list Z) : outcome number :=
  match draws with
  | [] => Starved
  | d :: rest =>
      let randomValue := Num (Uint32 d) in
      if JS.ge randomValue (limit max) then getRandomInt max rest
      else Ret (JS.rem randomValue (Num max)) rest
  end.

(** ** Options and character sets *)

Record Options : Type := {
  includeNumbers : bool;
  includeLowercase : bool;
  includeUppercase : bool;
  includeSymbols : bool;
  noSimilar : bool;
  noDuplicate : bool;
  noSequential : bool
}.

(** The handler's validation: at least one character type is ticked. *)
Definition anySelected (options : Options) : bool :=
  includeNumbers options || includeLowercase options
  || includeUppercase options || includeSymbols options.

Definition split (s : string) : list ascii := list_ascii_of_string s.

Definition join (a : list ascii) : string := string_of_list_ascii a.

Definition charCodeAt (c : ascii) : Z := Z.of_nat (nat_of_ascii c).

Definition numbers : string := "0123456789".
Definition lowercase : string := "abcdefghijklmnopqrstuvwxyz".
Definition uppercase : string := "ABCDEFGHIJKLMNOPQRSTUVWXYZ".
Definition symbols : string :=
  join (split "!@#$%^&*()-_=+[]{}|;:" ++ [ascii_of_nat 34] ++ split ",.<>/?~").

(** The class [[il1Lo0O]] of the regular expression. *)
Definition similarChars : list ascii := split "il1Lo0O".

(** [set.replace(/[il1Lo0O]/g, '')] *)
Definition removeSimilar (set : string) : string :=
  join (filter (λ c, c ∉ similarChars) (split set)).

Definition pushIf (flag : bool) (set : string) (characterSets : list string)
  : list string :=
  if flag then characterSets ++ [set] else characterSets.

Definition buildCharacterSets (options : Options) : list string :=
  let characterSets := [] in
  let characterSets := pushIf (includeNumbers options) numbers characterSets in
  let characterSets := pushIf (includeLowercase options) lowercase characterSets in
  let characterSets := pushIf (includeUppercase options) uppercase characterSets in
  let characterSets := pushIf (includeSymbols options) symbols characterSets in
  if noSimilar options then removeSimilar <$> characterSets else characterSets.

(** [characterSets.join('').split('')] *)
Definition buildAllCharsArray (characterSets : list string) : list ascii :=
  concat (split <$> characterSets).

(** ** Seeding, filling, shuffling *)

(** [usedChars] is the one [Set] object that the handler creates for an
    attempt and hands to both helpers; it is threaded through them
    together with [passwordArray]. *)
Fixpoint ensureCharacterTypeInclusion (passwordArray : list ascii)
    (characterSets : list string) (options : Options) (usedChars : gset ascii)
  : Rand (list ascii * gset ascii) :=
  match characterSets with
  | [] => ret (passwordArray, usedChars)
  | set :: more =>
      let setArray := split set in
      let availableSetArray :=
        if noDuplicate options
        then filter (λ char, char ∉ usedChars) setArray
        else setArray in
      if decide (length availableSetArray = 0%nat)
      then raise CannotIncludeEachType
      else
        let* r := getRandomInt (Z.of_nat (length availableSetArray)) in
        match JS.read availableSetArray r with
        | None => raise UndefinedRead
        | Some char =>
            ensureCharacterTypeInclusion (passwordArray ++ [char]) more options
              ({[char]} ∪ usedChars)
        end
  end.

(** The test of the [noSequential] branch: there is a last character and
    its code is one away from the code of [char]. *)
Definition sequential (passwordArray : list ascii) (char : ascii) : bool :=
  match last passwordArray with
  | Some prev =>
      let prevCharCode := charCodeAt prev in
      let currCharCode := charCodeAt char in
      bool_decide (Z.abs (currCharCode - prevCharCode) = 1)
  | None => false
  end.

(** The [while (passwordArray.length < length)] loop.  Every turn that
    does not throw calls [getRandomInt], which takes at least one draw,
    so [fuel] above the number of draws left is never what ends a run
    ([fillPassword_fuel]). *)
Fixpoint fillPassword_loop (fuel : nat) (passwordArray allCharsArray : list ascii)
    (len : Z) (options : Options) (usedChars : gset ascii)
  : Rand (list ascii * gset ascii) :=
  if bool_decide (Z.of_nat (length passwordArray) < len) then
    match fuel with
    | O => λ _, Starved
    | S fuel' =>
        if decide (length allCharsArray = 0%nat)
        then raise RanOutOfCharacters
        else
          let* r := getRandomInt (Z.of_nat (length allCharsArray)) in
          match JS.read allCharsArray r with
          | None => raise UndefinedRead
          | Some char =>
              if noDuplicate options && bool_decide (char ∈ usedChars) then
                fillPassword_loop fuel' passwordArray allCharsArray len options
                  usedChars
              else if noSequential options && sequential passwordArray char then
                fillPassword_loop fuel' passwordArray allCharsArray len options
                  usedChars
              else
                fillPassword_loop fuel' (passwordArray ++ [char]) allCharsArray
                  len options ({[char]} ∪ usedChars)
          end
    end
  else ret (passwordArray, usedChars).

Definition fillPassword (passwordArray allCharsArray : list ascii) (len : Z)
    (options : Options) (usedChars : gset ascii)
  : Rand (list ascii * gset ascii) :=
  λ draws,
    fillPassword_loop (S (length draws)) passwordArray allCharsArray len options
      usedChars draws.

(** [[a[i], a[j]] = [a[j], a[i]]]: both cells are read, then [a[i]] and
    [a[j]] are written in this order. *)
Definition swap (passwordArray : list ascii) (i : nat) (j : number)
  : option (list ascii) :=
  match JS.read passwordArray j, passwordArray !! i, j with
  | Some cj, Some ci, Num z => Some (<[Z.to_nat z := ci]> (<[i := cj]> passwordArray))
  | _, _, _ => None
  end.

(** [for (let i = passwordArray.length - 1; i > 0; i--)] *)
Fixpoint shuffle (i : nat) (passwordArray : list ascii) : Rand (list ascii) :=
  match i with
  | O => ret passwordArray
  | S i' =>
      let* j := getRandomInt (Z.of_nat i + 1) in
      match swap passwordArray i j with
      | Some swapped => shuffle i' swapped
      | None => raise UndefinedRead
      end
  end.

(** One turn of the handler's loop, from the fresh [passwordArray] and
    [usedChars] to [password]. *)
Definition attempt (characterSets : list string) (allCharsArray : list ascii)
    (len : Z) (options : Options) : Rand string :=
  let* seeded := ensureCharacterTypeInclusion [] characterSets options ∅ in
  let '(passwordArray, usedChars) := seeded in
  let availableChars :=
    if noDuplicate options
    then filter (λ char, char ∉ usedChars) allCharsArray
    else allCharsArray in
  let* filled :=
    fillPassword passwordArray availableChars len options usedChars in
  let '(passwordArray, _) := filled in
  let* passwordArray := shuffle (length passwordArray - 1) passwordArray in
  ret (join passwordArray).

(** The attempt that a request makes. *)
Definition generateOne (options : Options) (len : Z) : Rand string :=
  let characterSets := buildCharacterSets options in
  attempt characterSets (buildAllCharsArray characterSets) len options.

(** ** Entropy and strength *)

(** The text that [toFixed(2)] returns, read back as the number that
    [getPasswordStrength] compares: a count of hundredths, or one of the
    three non-finite values. *)
Inductive fixed2 : Type :=
| Fixed (hundredths : Z)
| Infinite (negative : bool)
| NotANumber.

(** [100 * passwordLength * log2 characterSetSize] rounded to the nearest
    integer, halves upwards, for [passwordLength >= 0] and
    [characterSetSize >= 1]: the floor of [x + 1/2] with
    [2 x = log2 (characterSetSize ^ (200 * passwordLength))].
    [Math.log2] and the product are taken as the exact real operations;
    the rounding error of IEEE doubles is not modelled. *)
Definition roundedBits (passwordLength characterSetSize : Z) : Z :=
  Z.log2 (2 * characterSetSize ^ (200 * passwordLength)) / 2.

(** [(passwordLength * Math.log2(characterSetSize)).toFixed(2)] *)
Definition calculateEntropy (passwordLength characterSetSize : Z) : fixed2 :=
  if decide (characterSetSize < 0) then NotANumber
  else if decide (characterSetSize = 0) then
    if decide (passwordLength = 0) then NotANumber
    else Infinite (bool_decide (0 < passwordLength))
  else if decide (0 ≤ passwordLength) then
    Fixed (roundedBits passwordLength characterSetSize)
  else Fixed (- roundedBits (- passwordLength) characterSetSize).

(** [entropy < bits] *)
Definition below (entropy : fixed2) (bits : Z) : bool :=
  match entropy with
  | Fixed hundredths => bool_decide (hundredths < 100 * bits)
  | Infinite negative => negative
  | NotANumber => false
  end.

Record StrengthInfo : Type := { label : string; className : string }.

Definition getPasswordStrength (entropy : fixed2) : StrengthInfo :=
  if below entropy 50 then {| label := "Weak"; className := "strength-weak" |}
  else if below entropy 70 then {| label := "Fair"; className := "strength-fair" |}
  else if below entropy 90 then {| label := "Good"; className := "strength-good" |}
  else if below entropy 110 then
    {| label := "Strong"; className := "strength-strong" |}
  else if below entropy 130 then
    {| label := "Very Strong"; className := "strength-very-strong" |}
  else if below entropy 150 then
    {| label := "Extremely Strong"; className := "strength-extremely-strong" |}
  else {| label := "Unbreakable"; className := "strength-unbreakable" |}.

(** ** The page and the click handler *)

(** What the handler shows for one password. *)
Record PasswordContainer : Type := {
  passwordText : string;
  strengthInfo : StrengthInfo;
  entropy : fixed2
}.

Inductive notice : Type :=
| NoCharacterTypes
| CannotGenerateWithoutDuplicates (len : Z)
| NotEnoughUnique
| Caught (e : exn).

Definition noticeText (n : notice) : string :=
  match n with
  | NoCharacterTypes =>
      "No character types selected. Please select at least one character type to include in your password."
  | CannotGenerateWithoutDuplicates len =>
      "Cannot generate a " +:+ pretty len +:+
      "-character password without duplicates given the selected options. Please reduce the password length or adjust your settings."
  | NotEnoughUnique =>
      "Could not generate enough unique passwords. Adjust your settings or reduce the password length."
  | Caught e => message e
  end.

(** The two elements the handler writes: [#error-message] ([None] when
    hidden) and the children of [#passwords]. *)
Record Page : Type := {
  errorMessage : option notice;
  passwords : list PasswordContainer
}.

Definition clearError (page : Page) : Page :=
  {| errorMessage := None; passwords := passwords page |}.

Definition displayError (n : notice) (page : Page) : Page :=
  {| errorMessage := Some n; passwords := passwords page |}.

(** The variables of the [while] loop; [shown] is what has been appended
    to [#passwords] so far. *)
Record Batch : Type := {
  generatedPasswords : gset string;
  attempts : Z;
  shown : list PasswordContainer
}.

Inductive loopExit : Type :=
| Left (b : Batch) (rest : list Z)
| Threw (e : exn) (b : Batch) (rest : list Z)
| StillLooping.

(** [while (generatedPasswords.size < 5 && attempts < 1000)].  The loop
    adds one to [attempts] on every turn, so started at [attempts = 0]
    with [fuel = 1000] it never stops for lack of fuel
    ([batch_fuel]). *)
Fixpoint batchLoop (fuel : nat) (characterSets : list string)
    (allCharsArray : list ascii) (len : Z) (options : Options) (b : Batch)
    (draws : list Z) : loopExit :=
  if bool_decide (size (generatedPasswords b) < 5)%nat
     && bool_decide (attempts b < 1000)
  then
    match fuel with
    | O => StillLooping
    | S fuel' =>
        let attempts' := attempts b + 1 in
        match attempt characterSets allCharsArray len options draws with
        | Starved => StillLooping
        | Raise e rest =>
            Threw e {| generatedPasswords := generatedPasswords b;
                       attempts := attempts'; shown := shown b |} rest
        | Ret password rest =>
            if bool_decide (password ∈ generatedPasswords b) then
              batchLoop fuel' characterSets allCharsArray len options
                {| generatedPasswords := generatedPasswords b;
                   attempts := attempts'; shown := shown b |} rest
            else
              let characterSetSize := Z.of_nat (length allCharsArray) in
              let entropy := calculateEntropy len characterSetSize in
              let strengthInfo := getPasswordStrength entropy in
              batchLoop fuel' characterSets allCharsArray len options
                {| generatedPasswords := {[password]} ∪ generatedPasswords b;
                   attempts := attempts';
                   shown := shown b ++
                     [{| passwordText := password; strengthInfo := strengthInfo;
                         entropy := entropy |}] |} rest
        end
    end
  else Left b draws.

Inductive click : Type :=
| Returned (page : Page) (rest : list Z) (attemptsMade : Z)
| Running.

(** The listener of [#generateBtn].  [attemptsMade] reports the final
    value of the local [attempts] (0 when the loop was not reached). *)
Definition onGenerateClick (len : Z) (options : Options) (page : Page)
    (draws : list Z) : click :=
  let page := clearError page in
  if negb (anySelected options) then
    Returned (displayError NoCharacterTypes page) draws 0
  else
    let characterSets := buildCharacterSets options in
    let allCharsArray := buildAllCharsArray characterSets in
    if noDuplicate options && bool_decide (Z.of_nat (length allCharsArray) < len)
    then Returned (displayError (CannotGenerateWithoutDuplicates len) page) draws 0
    else
      let start := {| generatedPasswords := ∅; attempts := 0; shown := [] |} in
      match batchLoop 1000 characterSets allCharsArray len options start draws with
      | Left b rest =>
          let page := {| errorMessage := errorMessage page; passwords := shown b |} in
          Returned
            (if bool_decide (size (generatedPasswords b) < 5)%nat
             then displayError NotEnoughUnique page else page)
            rest (attempts b)
      | Threw e b rest =>
          let page := {| errorMessage := errorMessage page; passwords := shown b |} in
          Returned (displayError (Caught e) page) rest (attempts b)
      | StillLooping => Running
      end.

(** ** The length slider *)

(** [getStrengthFeedback], from the number that [parseInt(length)] gives
    for the value of the slider ([NaN] when the value does not start with
    an integer).  [length <= 15] is [15 >= length]. *)
Definition getStrengthFeedback (length : number) : string :=
  if JS.ge length (Num 6) && JS.ge (Num 15) length then "Weak"
  else if JS.ge length (Num 16) && JS.ge (Num 60) length then "Strong"
  else "".

(** ** Notions used in the statements *)

(** Giving a computation more draws than it used does not change what it
    did. *)
Definition stable {A} (m : Rand A) : Prop :=
  ∀ draws more,
    match m draws with
    | Ret a rest => m (draws ++ more) = Ret a (rest ++ more)
    | Raise e rest => m (draws ++ more) = Raise e (rest ++ more)
    | Starved => True
    end.

(** Whatever has been drawn so far, some continuation of the source lets
    the computation come to an end: it is never stuck. *)
Definition completes {A} (m : Rand A) : Prop :=
  ∀ draws, ∃ more, m (draws ++ more) ≠ Starved.

(** Two neighbours whose character codes are one apart. *)
Fixpoint hasSequentialPair (password : list ascii) : bool :=
  match password with
  | c1 :: (c2 :: _) as tail =>
      bool_decide (Z.abs (charCodeAt c2 - charCodeAt c1) = 1)
      || hasSequentialPair tail
  | _ => false
  end.

(** The test by which [fillPassword] keeps a sampled character. *)
Definition accepted (options : Options) (passwordArray : list ascii)
    (usedChars : gset ascii) (char : ascii) : bool :=
  negb (noDuplicate options && bool_decide (char ∈ usedChars))
  && negb (noSequential options && sequential passwordArray char).

(** One turn of the [while] loop of [fillPassword] from the test of its
    condition, with what follows the turn passed as [next]; the loop is
    the fixed point of this turn ([fillPassword_unfold]). *)
Definition fillPassword_turn
    (next : list ascii → gset ascii → Rand (list ascii * gset ascii))
    (passwordArray allCharsArray : list ascii) (len : Z) (options : Options)
    (usedChars : gset ascii) : Rand (list ascii * gset ascii) :=
  if bool_decide (Z.of_nat (length passwordArray) < len) then
    if decide (length allCharsArray = 0%nat)
    then raise RanOutOfCharacters
    else
      let* r := getRandomInt (Z.of_nat (length allCharsArray)) in
      match JS.read allCharsArray r with
      | None => raise UndefinedRead
      | Some char =>
          if noDuplicate options && bool_decide (char ∈ usedChars) then
            next passwordArray usedChars
          else if noSequential options && sequential passwordArray char then
            next passwordArray usedChars
          else next (passwordArray ++ [char]) ({[char]} ∪ usedChars)
      end
  else ret (passwordArray, usedChars).

(** The character sets that seeding can always serve: none is empty and
    no character occurs twice, within a set or across sets. *)
Definition separateSets (characterSets : list string) : Prop :=
  Forall (λ set, split set ≠ []) characterSets
  ∧ NoDup (buildAllCharsArray characterSets).

(** The union of the base alphabets that the ticked boxes name. *)
Definition selectedAlphabet (options : Options) : list ascii :=
  (if includeNumbers options then split numbers else [])
  ++ (if includeLowercase options then split lowercase else [])
  ++ (if includeUppercase options then split uppercase else [])
  ++ (if includeSymbols options then split symbols else []).

(** What holds of the loop variables between two turns: the counters are
    within their bounds, and [#passwords] shows the distinct passwords of
    [generatedPasswords], each produced by an attempt and labelled with
    the entropy of the requested length over the whole array. *)
Record batchInv (characterSets : list string) (allCharsArray : list ascii)
    (len : Z) (options : Options) (b : Batch) : Prop := {
  inv_attempts : 0 ≤ attempts b ≤ 1000;
  inv_size : (size (generatedPasswords b) ≤ 5)%nat;
  inv_accepted : Z.of_nat (size (generatedPasswords b)) ≤ attempts b;
  inv_distinct : NoDup (passwordText <$> shown b);
  inv_shown : generatedPasswords b = list_to_set (passwordText <$> shown b);
  inv_entries :
    Forall (λ entry,
      (∃ draws rest,
         attempt characterSets allCharsArray len options draws
           = Ret (passwordText entry) rest)
      ∧ entropy entry = calculateEntropy len (Z.of_nat (length allCharsArray))
      ∧ strengthInfo entry = getPasswordStrength (entropy entry)) (shown b)
}.

(** ** Requests used as examples *)

Definition onlyNumbers : Options :=
  {| includeNumbers := true; includeLowercase := false;
     includeUppercase := false; includeSymbols := false;
     noSimilar := false; noDuplicate := false; noSequential := false |}.

Definition onlyLowercase : Options :=
  {| includeNumbers := false; includeLowercase := true;
     includeUppercase := false; includeSymbols := false;
     noSimilar := false; noDuplicate := false; noSequential := false |}.

Definition numbersAndLowercase : Options :=
  {| includeNumbers := true; includeLowercase := true;
     includeUppercase := false; includeSymbols := false;
     noSimilar := false; noDuplicate := false; noSequential := false |}.

Definition numbersAndSymbols : Options :=
  {| includeNumbers := true; includeLowercase := false;
     includeUppercase := false; includeSymbols := true;
     noSimilar := false; noDuplicate := false; noSequential := false |}.

Definition withNoDuplicate (options : Options) : Options :=
  {| includeNumbers := includeNumbers options;
     includeLowercase := includeLowercase options;
     includeUppercase := includeUppercase options;
     includeSymbols := includeSymbols options;
     noSimilar := noSimilar options; noDuplicate := true;
     noSequential := noSequential options |}.

Definition withNoSequential (options : Options) : Options :=
  {| includeNumbers := includeNumbers options;
     includeLowercase := includeLowercase options;
     includeUppercase := includeUppercase options;
     includeSymbols := includeSymbols options;
     noSimilar := noSimilar options; noDuplicate := noDuplicate options;
     noSequential := true |}.

Definition withNoSimilar (options : Options) : Options :=
  {| includeNumbers := includeNumbers options;
     includeLowercase := includeLowercase options;
     includeUppercase := includeUppercase options;
     includeSymbols := includeSymbols options;
     noSimilar := true; noDuplicate := noDuplicate options;
     noSequential := noSequential options |}.

Definition blankPage : Page := {| errorMessage := None; passwords := [] |}.




(** The passwords that [k] attempts in a row return, each one drawing
    where the one before stopped, and the draws that are left. *)
Fixpoint returnedBy (one : Rand string) (k : nat) (draws : list Z)
  : option (list string * list Z) :=
  match k with
  | O => Some ([], draws)
  | S k' =>
      match one draws with
      | Ret password rest =>
          match returnedBy one k' rest with
          | Some (later, remaining) => Some (password :: later, remaining)
          | None => None
          end
      | _ => None
      end
  end.

(** The passwords of [returned] that the loop accepts, in the order it
    meets them: each one the first time it occurs, unless it is in
    [seen]. *)
Fixpoint acceptedOf (seen : gset string) (returned : list string) : list string :=
  match returned with
  | [] => []
  | password :: later =>
      if decide (password ∈ seen) then acceptedOf seen later
      else password :: acceptedOf ({[password]} ∪ seen) later
  end.

(** The container that the loop appends to [#passwords] for an accepted
    password: its text, and the entropy and strength of the request. *)
Definition containerOf (len : Z) (allCharsArray : list ascii)
    (password : string) : PasswordContainer :=
  let entropy := calculateEntropy len (Z.of_nat (length allCharsArray)) in
  {| passwordText := password; strengthInfo := getPasswordStrength entropy;
     entropy := entropy |}.

(** * Properties *)

(** ** The sampler *)

Lemma Uint32_range z : 0 ≤ Uint32 z < 2 ^ 32.
Proof. unfold Uint32. apply Z.mod_pos_bound. lia. Qed.

Lemma Uint32_small z : 0 ≤ z < 2 ^ 32 → Uint32 z = z.
Proof. intros. unfold Uint32. by apply Z.mod_small. Qed.

Lemma limit_pos (max : Z) :
  max ≠ 0 → limit max = Num (maxUint32 - Z.rem maxUint32 max).
Proof. intros H. unfold limit. simpl. by destruct (decide (max = 0)). Qed.

Lemma limit_floor (b : Z) :
  1 ≤ b → maxUint32 - Z.rem maxUint32 b = maxUint32 / b * b.
Proof.
  intros Hb. rewrite Z.rem_mod_nonneg by (unfold maxUint32; lia).
  pose proof (Z.div_mod maxUint32 b ltac:(lia)). lia.
Qed.

Lemma limit_ge_bound (b : Z) :
  1 ≤ b ≤ maxUint32 → b ≤ maxUint32 / b * b ≤ maxUint32.
Proof.
  intros Hb.
  assert (1 ≤ maxUint32 / b) by (apply Z.div_le_lower_bound; lia).
  pose proof (Z.mul_div_le maxUint32 b ltac:(lia)). nia.
Qed.

Lemma getRandomInt_step (b d : Z) (rest : list Z) :
  1 ≤ b →
  getRandomInt b (d :: rest) =
    if bool_decide (maxUint32 / b * b ≤ Uint32 d) then getRandomInt b rest
    else Ret (Num (Uint32 d mod b)) rest.
Proof.
  intros Hb. simpl. rewrite limit_pos by lia. rewrite limit_floor by done.
  simpl. case_bool_decide; [done|].
  destruct (decide (b = 0)); [lia|].
  rewrite Z.rem_mod_nonneg; [done| |lia]. apply Uint32_range.
Qed.

Lemma getRandomInt_range (b : Z) (draws : list Z) (v : number) (rest : list Z) :
  1 ≤ b → getRandomInt b draws = Ret v rest → ∃ z, v = Num z ∧ 0 ≤ z < b.
Proof.
  intros Hb. induction draws as [|d draws IH]; [done|].
  rewrite getRandomInt_step by done. case_bool_decide; [done|].
  intros [= <- <-]. eexists; split; [done|]. apply Z.mod_pos_bound. lia.
Qed.

Lemma getRandomInt_never_raises (b : Z) (draws : list Z) (e : exn) (rest : list Z) :
  getRandomInt b draws ≠ Raise e rest.
Proof. induction draws as [|d draws IH]; simpl; [done|]. by case_match. Qed.

(** A call that returns has used at least one draw and hands back a
    suffix of what it was given. *)
Lemma getRandomInt_consumes (b : Z) (draws : list Z) (v : number) (rest : list Z) :
  getRandomInt b draws = Ret v rest → (length rest < length draws)%nat.
Proof.
  induction draws as [|d draws IH]; simpl; [done|].
  case_match; [intros Hr%IH; lia|]. intros [= <- <-]. lia.
Qed.

Lemma getRandomInt_skips (b : Z) (rejected rest : list Z) :
  1 ≤ b →
  Forall (λ x, maxUint32 / b * b ≤ Uint32 x) rejected →
  getRandomInt b (rejected ++ rest) = getRandomInt b rest.
Proof.
  intros Hb. induction 1 as [|x rejected Hx _ IH]; [done|].
  rewrite <- app_comm_cons, getRandomInt_step by done.
  by rewrite bool_decide_eq_true_2.
Qed.

Lemma getRandomInt_all_rejected (b : Z) (draws : list Z) :
  1 ≤ b →
  Forall (λ x, maxUint32 / b * b ≤ Uint32 x) draws →
  getRandomInt b draws = Starved.
Proof.
  intros Hb Hall. rewrite <- (app_nil_r draws). by rewrite getRandomInt_skips.
Qed.

Lemma getRandomInt_accepts (b d : Z) (rest : list Z) :
  1 ≤ b ≤ maxUint32 → 0 ≤ d < b →
  getRandomInt b (d :: rest) = Ret (Num d) rest.
Proof.
  intros Hb Hd. rewrite getRandomInt_step by lia.
  pose proof (limit_ge_bound b Hb).
  rewrite Uint32_small by (unfold maxUint32 in *; lia).
  rewrite bool_decide_eq_false_2 by lia. by rewrite Z.mod_small.
Qed.

(** Each residue has the same number of accepted draws: the draws below
    the limit that reduce to [z] are [z], [b + z], ..., one for each
    [k] below [maxUint32 / b]. *)
Lemma accepted_draws_of_residue (b z d : Z) :
  1 ≤ b → 0 ≤ z < b →
  (0 ≤ d < maxUint32 / b * b ∧ d mod b = z)
  ↔ (∃ k, 0 ≤ k < maxUint32 / b ∧ d = k * b + z).
Proof.
  intros Hb Hz. split.
  - intros [Hd <-]. exists (d / b). split.
    + split; [apply Z.div_pos; lia|]. apply Z.div_lt_upper_bound; lia.
    + pose proof (Z.div_mod d b ltac:(lia)). lia.
  - intros (k & Hk & ->). split; [nia|].
    rewrite Z.add_comm, Z.mod_add by lia. by apply Z.mod_small.
Qed.

(** C3: for every bound [b >= 1], getRandomInt compares each 32-bit
    draw against [limit = floor(maxUint32 / b) * b], skips every draw at
    or above it, and returns the first draw below it reduced modulo [b]:
    only values in [[0, b)].  Each of these values has exactly
    [maxUint32 / b] accepted draws, and, the bound being a 32-bit value,
    every one of them is returned for some draw. *)
Theorem getRandomInt_rejection_sampling (b : Z) (Hb : 1 ≤ b) :
  limit b = Num (maxUint32 / b * b)
  ∧ (∀ draws v rest,
       getRandomInt b draws = Ret v rest → ∃ z, v = Num z ∧ 0 ≤ z < b)
  ∧ (∀ rejected d rest,
       Forall (λ x, maxUint32 / b * b ≤ Uint32 x) rejected →
       Uint32 d < maxUint32 / b * b →
       getRandomInt b (rejected ++ d :: rest) = Ret (Num (Uint32 d mod b)) rest)
  ∧ (∀ draws,
       Forall (λ x, maxUint32 / b * b ≤ Uint32 x) draws →
       getRandomInt b draws = Starved)
  ∧ (∀ z d, 0 ≤ z < b →
       (0 ≤ d < maxUint32 / b * b ∧ d mod b = z)
       ↔ (∃ k, 0 ≤ k < maxUint32 / b ∧ d = k * b + z))
  ∧ (b ≤ maxUint32 →
     ∀ z rest, 0 ≤ z < b → getRandomInt b (z :: rest) = Ret (Num z) rest).
Proof.
  split_and!.
  - rewrite limit_pos by lia. by rewrite limit_floor by lia.
  - intros draws v rest. by apply getRandomInt_range.
  - intros rejected d rest Hrej Hd.
    rewrite getRandomInt_skips, getRandomInt_step by done.
    by rewrite bool_decide_eq_false_2 by lia.
  - intros draws. by apply getRandomInt_all_rejected.
  - intros z d Hz. by apply accepted_draws_of_residue.
  - intros Hmax z rest Hz. by apply getRandomInt_accepts.
Qed.

Lemma getRandomInt_rejection_sampling_witness :
  1 ≤ 26
  ∧ getRandomInt 26 [0xFFFFFFFF; 0xFFFFFFF0; 30; 7] = Ret (Num 4) [7].
Proof.
  assert (Hb : 1 ≤ 26) by lia.
  split; [exact Hb|].
  pose proof (getRandomInt_rejection_sampling 26 Hb) as (_ & _ & Hskip & _).
  apply (Hskip [0xFFFFFFFF; 0xFFFFFFF0] 30 [7]).
  - repeat constructor; vm_compute; discriminate.
  - vm_compute. reflexivity.
Defined.

(** C4: with bound 0 the limit is [NaN], the loop stops at the first
    draw whatever it is, and the value returned is [NaN]: no call returns
    a number, and none throws. *)
Theorem getRandomInt_zero_bound (draws : list Z) :
  limit 0 = NaN
  ∧ getRandomInt 0 draws
    = match draws with [] => Starved | _ :: rest => Ret NaN rest end
  ∧ (∀ z rest, getRandomInt 0 draws ≠ Ret (Num z) rest)
  ∧ (∀ e rest, getRandomInt 0 draws ≠ Raise e rest).
Proof.
  split_and!; [done|by destruct draws|by destruct draws|by destruct draws].
Qed.

(** ** Computations over the random source *)

Lemma bind_Ret {A B} (m : Rand A) (k : A → Rand B) draws a rest :
  m draws = Ret a rest → bind m k draws = k a rest.
Proof. unfold bind. by intros ->. Qed.

Lemma bind_Raise {A B} (m : Rand A) (k : A → Rand B) draws e rest :
  m draws = Raise e rest → bind m k draws = Raise e rest.
Proof. unfold bind. by intros ->. Qed.

Lemma bind_Starved {A B} (m : Rand A) (k : A → Rand B) draws :
  m draws = Starved → bind m k draws = Starved.
Proof. unfold bind. by intros ->. Qed.

Lemma stable_Ret {A} (m : Rand A) draws more a rest :
  stable m → m draws = Ret a rest → m (draws ++ more) = Ret a (rest ++ more).
Proof. intros Hm E. specialize (Hm draws more). by rewrite E in Hm. Qed.

Lemma stable_Raise {A} (m : Rand A) draws more e rest :
  stable m → m draws = Raise e rest → m (draws ++ more) = Raise e (rest ++ more).
Proof. intros Hm E. specialize (Hm draws more). by rewrite E in Hm. Qed.

Lemma stable_not_Starved {A} (m : Rand A) draws more :
  stable m → m draws ≠ Starved → m (draws ++ more) ≠ Starved.
Proof.
  intros Hm E. specialize (Hm draws more).
  destruct (m draws); [by rewrite Hm..|done].
Qed.

Lemma stable_ret {A} (a : A) : stable (ret a).
Proof. by intros draws more. Qed.

Lemma stable_raise {A} (e : exn) : stable (@raise A e).
Proof. by intros draws more. Qed.

Lemma stable_bind {A B} (m : Rand A) (k : A → Rand B) :
  stable m → (∀ a, stable (k a)) → stable (bind m k).
Proof.
  intros Hm Hk draws more. unfold bind.
  destruct (m draws) as [a rest|e rest|] eqn:E; [| |done].
  - rewrite (stable_Ret m draws more a rest Hm E). apply Hk.
  - by rewrite (stable_Raise m draws more e rest Hm E).
Qed.

Lemma getRandomInt_cons (b d : Z) (rest : list Z) :
  getRandomInt b (d :: rest) =
    if JS.ge (Num (Uint32 d)) (limit b) then getRandomInt b rest
    else Ret (JS.rem (Num (Uint32 d)) (Num b)) rest.
Proof. done. Qed.

Lemma stable_getRandomInt (b : Z) : stable (getRandomInt b).
Proof.
  intros draws more. induction draws as [|d draws IH]; [done|].
  rewrite <- app_comm_cons, !getRandomInt_cons.
  by destruct (JS.ge _ _).
Qed.

Lemma getRandomInt_resume (b : Z) (draws more : list Z) :
  getRandomInt b draws = Starved →
  getRandomInt b (draws ++ more) = getRandomInt b more.
Proof.
  induction draws as [|d draws IH]; [done|].
  rewrite <- app_comm_cons, !getRandomInt_cons.
  by destruct (JS.ge _ _).
Qed.

Lemma completes_ret {A} (a : A) : completes (ret a).
Proof. intros draws. by exists []. Qed.

Lemma completes_raise {A} (e : exn) : completes (@raise A e).
Proof. intros draws. by exists []. Qed.

Lemma completes_getRandomInt (b : Z) :
  1 ≤ b ≤ maxUint32 → completes (getRandomInt b).
Proof.
  intros Hb draws.
  destruct (getRandomInt b draws) as [v rest|e rest|] eqn:E.
  - exists []. by rewrite app_nil_r, E.
  - exists []. by rewrite app_nil_r, E.
  - exists [0]. rewrite getRandomInt_resume by done.
    by rewrite getRandomInt_accepts by lia.
Qed.

(** Sequencing: the second computation only has to complete from the
    values that the first one can return. *)
Lemma completes_bind {A B} (m : Rand A) (k : A → Rand B) (post : A → Prop) :
  stable m → completes m →
  (∀ draws a rest, m draws = Ret a rest → post a) →
  (∀ a, post a → completes (k a)) →
  completes (bind m k).
Proof.
  intros Hst Hm Hpost Hk draws.
  destruct (Hm draws) as [more1 H1]. unfold bind.
  destruct (m (draws ++ more1)) as [a rest|e rest|] eqn:E; [| |done].
  - destruct (Hk a (Hpost _ _ _ E) rest) as [more2 H2].
    exists (more1 ++ more2). rewrite app_assoc.
    by rewrite (stable_Ret m _ more2 a rest Hst E).
  - exists more1. by rewrite E.
Qed.

(** ** Array reads at a sampled index *)

Lemma read_Num {A} (arr : list A) (z : Z) :
  0 ≤ z → JS.read arr (Num z) = arr !! Z.to_nat z.
Proof. intros Hz. simpl. by destruct (decide (0 ≤ z)). Qed.

Lemma read_sampled {A} (arr : list A) draws r rest :
  arr ≠ [] →
  getRandomInt (Z.of_nat (length arr)) draws = Ret r rest →
  ∃ z c, r = Num z ∧ 0 ≤ z < Z.of_nat (length arr)
         ∧ arr !! Z.to_nat z = Some c ∧ JS.read arr r = Some c.
Proof.
  intros Hne E.
  assert (1 ≤ Z.of_nat (length arr)) as Hb by (destruct arr; simpl in *; [done|lia]).
  destruct (getRandomInt_range _ _ _ _ Hb E) as (z & -> & Hz).
  destruct (lookup_lt_is_Some_2 arr (Z.to_nat z)) as [c Hc]; [lia|].
  exists z, c. by rewrite read_Num by lia.
Qed.

Lemma read_elem_of {A} (arr : list A) (r : number) (c : A) :
  JS.read arr r = Some c → c ∈ arr.
Proof.
  unfold JS.read. destruct r as [z|]; [|done]. case_decide; [|done].
  apply list_elem_of_lookup_2.
Qed.

(** ** The filling loop *)

Section fill.
Context (allCharsArray : list ascii) (len : Z) (options : Options).

Local Notation loop fuel pw used :=
  (fillPassword_loop fuel pw allCharsArray len options used).
Local Notation fill pw used :=
  (fillPassword pw allCharsArray len options used).
Local Notation turn next pw used :=
  (fillPassword_turn next pw allCharsArray len options used).

Lemma fillPassword_loop_O pw used draws :
  loop O pw used draws =
    if bool_decide (Z.of_nat (length pw) < len) then Starved else Ret (pw, used) draws.
Proof. simpl. by case_bool_decide. Qed.

Lemma fillPassword_loop_S fuel pw used :
  loop (S fuel) pw used = turn (λ pw' used', loop fuel pw' used') pw used.
Proof. unfold fillPassword_turn. simpl. by case_bool_decide. Qed.

(** Two turns that agree on what follows them agree. *)
Lemma fillPassword_turn_ext next1 next2 pw used draws :
  (∀ pw' used' rest,
     (length rest < length draws)%nat → next1 pw' used' rest = next2 pw' used' rest) →
  turn next1 pw used draws = turn next2 pw used draws.
Proof.
  intros Hnext. unfold fillPassword_turn.
  case_bool_decide; [|done]. case_decide; [done|]. unfold bind.
  destruct (getRandomInt _ draws) as [r rest|e rest|] eqn:E; [|done..].
  apply getRandomInt_consumes in E.
  destruct (JS.read allCharsArray r); [|done].
  repeat case_match; by apply Hnext.
Qed.

(** The fuel plays no part once it exceeds the number of draws left. *)
Lemma fillPassword_fuel n m pw used draws :
  (length draws < n)%nat → (length draws < m)%nat →
  loop n pw used draws = loop m pw used draws.
Proof.
  revert m pw used draws.
  induction n as [|n IH]; intros m pw used draws Hn Hm; [lia|].
  destruct m as [|m]; [lia|]. rewrite !fillPassword_loop_S.
  apply fillPassword_turn_ext. intros pw' used' rest Hrest. apply IH; lia.
Qed.

Lemma fillPassword_unfold pw used draws :
  fill pw used draws = turn (λ pw' used', fill pw' used') pw used draws.
Proof.
  unfold fillPassword at 1. rewrite fillPassword_loop_S.
  apply fillPassword_turn_ext. intros pw' used' rest Hrest.
  unfold fillPassword. apply fillPassword_fuel; lia.
Qed.

(** Induction along the turns of the loop: a run leaves the loop, is
    starved by the sampler, throws on an empty array, or samples a
    character of the array and goes on, with or without it. *)
Lemma fillPassword_ind
    (P : list ascii → gset ascii → list Z → outcome (list ascii * gset ascii) → Prop) :
  (∀ pw used draws,
     ¬ Z.of_nat (length pw) < len → P pw used draws (Ret (pw, used) draws)) →
  (∀ pw used draws,
     Z.of_nat (length pw) < len → allCharsArray = [] →
     P pw used draws (Raise RanOutOfCharacters draws)) →
  (∀ pw used draws,
     Z.of_nat (length pw) < len → allCharsArray ≠ [] →
     getRandomInt (Z.of_nat (length allCharsArray)) draws = Starved →
     P pw used draws Starved) →
  (∀ pw used draws z char rest,
     Z.of_nat (length pw) < len →
     getRandomInt (Z.of_nat (length allCharsArray)) draws = Ret (Num z) rest →
     allCharsArray !! Z.to_nat z = Some char →
     accepted options pw used char = false →
     P pw used rest (fill pw used rest) →
     P pw used draws (fill pw used rest)) →
  (∀ pw used draws z char rest,
     Z.of_nat (length pw) < len →
     getRandomInt (Z.of_nat (length allCharsArray)) draws = Ret (Num z) rest →
     allCharsArray !! Z.to_nat z = Some char →
     accepted options pw used char = true →
     P (pw ++ [char]) ({[char]} ∪ used) rest (fill (pw ++ [char]) ({[char]} ∪ used) rest) →
     P pw used draws (fill (pw ++ [char]) ({[char]} ∪ used) rest)) →
  ∀ pw used draws, P pw used draws (fill pw used draws).
Proof.
  intros Hexit Hran Hstarved Hskip Hpush pw used draws.
  remember (length draws) as n eqn:Hn.
  revert pw used draws Hn.
  induction (lt_wf n) as [n _ IH]; intros pw used draws ->.
  rewrite fillPassword_unfold. unfold fillPassword_turn.
  case_bool_decide as Hlen; [|by apply Hexit].
  case_decide as Hempty.
  { apply Hran; [done|]. by apply nil_length_inv. }
  assert (allCharsArray ≠ []) as Hne by (by intros ->).
  unfold bind.
  destruct (getRandomInt _ draws) as [r rest|e rest|] eqn:E.
  - destruct (read_sampled _ _ _ _ Hne E) as (z & char & -> & Hz & Hchar & ->).
    pose proof (getRandomInt_consumes _ _ _ _ E) as Hshort.
    destruct (accepted options pw used char) eqn:Hacc;
      pose proof Hacc as Htest; unfold accepted in Htest.
    + apply andb_true_iff in Htest as [Hdup%negb_true_iff Hseq%negb_true_iff].
      rewrite Hdup, Hseq. eapply Hpush; eauto.
    + destruct (noDuplicate options && bool_decide (char ∈ used)) eqn:Hdup.
      { eapply Hskip; eauto. }
      simpl in Htest. apply negb_false_iff in Htest. rewrite Htest.
      eapply Hskip; eauto.
  - by apply getRandomInt_never_raises in E.
  - by apply Hstarved.
Qed.

Lemma fillPassword_exit pw used draws :
  ¬ Z.of_nat (length pw) < len → fill pw used draws = Ret (pw, used) draws.
Proof.
  intros Hlen. rewrite fillPassword_unfold. unfold fillPassword_turn.
  by rewrite bool_decide_eq_false_2.
Qed.

Lemma fillPassword_starved pw used draws :
  Z.of_nat (length pw) < len → allCharsArray ≠ [] →
  getRandomInt (Z.of_nat (length allCharsArray)) draws = Starved →
  fill pw used draws = Starved.
Proof.
  intros Hlen Hne E. rewrite fillPassword_unfold. unfold fillPassword_turn.
  rewrite bool_decide_eq_true_2 by done.
  case_decide as Hempty; [by apply nil_length_inv in Hempty|].
  by apply bind_Starved.
Qed.

Lemma fillPassword_sampled pw used draws z char rest :
  Z.of_nat (length pw) < len →
  getRandomInt (Z.of_nat (length allCharsArray)) draws = Ret (Num z) rest →
  0 ≤ z → allCharsArray !! Z.to_nat z = Some char →
  fill pw used draws =
    if accepted options pw used char
    then fill (pw ++ [char]) ({[char]} ∪ used) rest
    else fill pw used rest.
Proof.
  intros Hlen E Hz Hchar. rewrite fillPassword_unfold at 1.
  unfold fillPassword_turn. rewrite bool_decide_eq_true_2 by done.
  case_decide as Hempty.
  { apply nil_length_inv in Hempty. by rewrite Hempty in Hchar. }
  erewrite bind_Ret by done. rewrite read_Num, Hchar by done.
  unfold accepted. destruct (noDuplicate options && _); [done|].
  by destruct (noSequential options && _).
Qed.

(** What a run that leaves the loop returns: the array grown by sampled
    characters of [allCharsArray] up to [len], or untouched when it was
    already that long. *)
Lemma fillPassword_returns pw used draws pw' used' rest :
  fill pw used draws = Ret (pw', used') rest →
  ∃ new, pw' = pw ++ new ∧ Forall (λ c, c ∈ allCharsArray) new
         ∧ Z.of_nat (length pw') = Z.max len (Z.of_nat (length pw)).
Proof.
  revert pw' used' rest.
  apply (fillPassword_ind (λ pw used draws out, ∀ pw' used' rest,
    out = Ret (pw', used') rest →
    ∃ new, pw' = pw ++ new ∧ Forall (λ c, c ∈ allCharsArray) new
           ∧ Z.of_nat (length pw') = Z.max len (Z.of_nat (length pw)))).
  - intros ??? Hlen ??? [= <- <- <-]. exists []. rewrite app_nil_r.
    split_and!; [done|constructor|lia].
  - done.
  - done.
  - intros ?????? _ _ _ _ IH. exact IH.
  - intros pw0 used0 draws0 z char rest0 Hlen _ Hchar _ IH pw' used' rest E.
    destruct (IH _ _ _ E) as (new & -> & Hnew & Hl).
    exists (char :: new). rewrite <- app_assoc. split_and!; [done| |].
    + constructor; [|done]. by eapply list_elem_of_lookup_2.
    + rewrite !length_app in *. simpl in *. lia.
Qed.

Lemma fillPassword_never_raises pw used draws e rest :
  allCharsArray ≠ [] → fill pw used draws ≠ Raise e rest.
Proof.
  intros Hne. revert e rest.
  apply (fillPassword_ind (λ pw used draws out, ∀ e rest, out ≠ Raise e rest));
    try done.
Qed.

Lemma fillPassword_raises pw used draws e rest :
  fill pw used draws = Raise e rest → e = RanOutOfCharacters.
Proof.
  revert e rest.
  apply (fillPassword_ind (λ pw used draws out, ∀ e rest,
    out = Raise e rest → e = RanOutOfCharacters)); try done.
  by intros ??? _ _ ?? [= <- _].
Qed.

Lemma stable_fillPassword pw used : stable (fill pw used).
Proof.
  intros draws more. revert more.
  apply (fillPassword_ind (λ pw used draws out, ∀ more,
    match out with
    | Ret a rest => fill pw used (draws ++ more) = Ret a (rest ++ more)
    | Raise e rest => fill pw used (draws ++ more) = Raise e (rest ++ more)
    | Starved => True
    end)).
  - intros ??? Hlen more. by rewrite fillPassword_exit.
  - intros ??? Hlen Hempty more. rewrite fillPassword_unfold.
    unfold fillPassword_turn. rewrite bool_decide_eq_true_2 by done.
    case_decide as Hlen0; [done|]. by rewrite Hempty in Hlen0.
  - done.
  - intros pw0 used0 draws0 z char rest Hlen E Hchar Hacc IH more.
    assert (0 ≤ z) as Hz.
    { eapply getRandomInt_range in E as (? & [= <-] & ?); [lia|].
      apply lookup_lt_Some in Hchar. lia. }
    rewrite (fillPassword_sampled pw0 used0 (draws0 ++ more) z char (rest ++ more));
      [|done|by apply (stable_Ret _ _ _ _ _ (stable_getRandomInt _))|done..].
    rewrite Hacc. apply IH.
  - intros pw0 used0 draws0 z char rest Hlen E Hchar Hacc IH more.
    assert (0 ≤ z) as Hz.
    { eapply getRandomInt_range in E as (? & [= <-] & ?); [lia|].
      apply lookup_lt_Some in Hchar. lia. }
    rewrite (fillPassword_sampled pw0 used0 (draws0 ++ more) z char (rest ++ more));
      [|done|by apply (stable_Ret _ _ _ _ _ (stable_getRandomInt _))|done..].
    rewrite Hacc. apply IH.
Qed.

End fill.

(** ** Seeding *)

Lemma size_union_le (X Y : gset ascii) : (size (X ∪ Y) ≤ size X + size Y)%nat.
Proof.
  rewrite size_union_alt.
  pose proof (subseteq_size (Y ∖ X) Y ltac:(set_solver)). lia.
Qed.

Lemma size_list_to_set_le (l : list ascii) :
  (size (list_to_set (C:=gset ascii) l) ≤ length l)%nat.
Proof.
  induction l as [|c l IH]; [done|].
  rewrite list_to_set_cons. etrans; [apply size_union_le|].
  rewrite size_singleton. simpl. lia.
Qed.

Section seed.
Context (options : Options).

Local Notation ensure pw sets used :=
  (ensureCharacterTypeInclusion pw sets options used).

Lemma available_subset (used : gset ascii) (setArray : list ascii) (c : ascii) :
  c ∈ (if noDuplicate options then filter (λ char, char ∉ used) setArray
       else setArray) →
  c ∈ setArray.
Proof. destruct (noDuplicate options); [|done]. by intros [_ ?]%list_elem_of_filter. Qed.

Lemma available_all (used : gset ascii) (setArray : list ascii) :
  (∀ c, c ∈ setArray → c ∉ used) →
  (if noDuplicate options then filter (λ char, char ∉ used) setArray
   else setArray) = setArray.
Proof.
  intros Hfresh. destruct (noDuplicate options); [|done].
  induction setArray as [|c l IH]; [done|].
  rewrite filter_cons_True by (apply Hfresh; left).
  f_equal. apply IH. intros c' Hc'. apply Hfresh. by right.
Qed.

(** Seeding appends one character of each set, in the order of the sets,
    and records exactly these characters as used. *)
Lemma ensure_returns pw sets used draws pw' used' rest :
  ensure pw sets used draws = Ret (pw', used') rest →
  ∃ new, pw' = pw ++ new ∧ used' = list_to_set new ∪ used
         ∧ Forall2 (λ c set, c ∈ split set) new sets.
Proof.
  revert pw used draws.
  induction sets as [|set more IH]; intros pw used draws; simpl.
  { intros [= <- <- <-]. exists []. rewrite app_nil_r.
    split_and!; [done|set_solver|constructor]. }
  case_decide; [done|]. unfold bind.
  destruct (getRandomInt _ draws) as [r rest0|e rest0|] eqn:E; [|done..].
  destruct (JS.read _ r) as [char|] eqn:Hchar; [|done].
  intros (new & -> & -> & Hnew)%IH.
  exists (char :: new). rewrite <- app_assoc. split_and!; [done|set_solver|].
  constructor; [|done].
  eapply available_subset, read_elem_of, Hchar.
Qed.

Lemma ensure_length pw sets used draws pw' used' rest :
  ensure pw sets used draws = Ret (pw', used') rest →
  length pw' = (length pw + length sets)%nat ∧ (size used' ≤ size used + length sets)%nat.
Proof.
  intros (new & -> & -> & Hnew)%ensure_returns.
  apply Forall2_length in Hnew. rewrite length_app, <- Hnew. split; [done|].
  etrans; [apply size_union_le|].
  pose proof (size_list_to_set_le new). lia.
Qed.

(** Only the no-character case can make seeding throw. *)
Lemma ensure_raises pw sets used draws e rest :
  ensure pw sets used draws = Raise e rest → e = CannotIncludeEachType.
Proof.
  revert pw used draws.
  induction sets as [|set more IH]; intros pw used draws; simpl; [done|].
  case_decide as Hlen; [by intros [= <- <-]|]. unfold bind.
  destruct (getRandomInt _ draws) as [r rest0|e0 rest0|] eqn:E; [| |done].
  - assert ((if noDuplicate options
             then filter (λ char, char ∉ used) (split set)
             else split set) ≠ []) as Hne.
    { intros Hnil. by rewrite Hnil in Hlen. }
    destruct (read_sampled _ _ _ _ Hne E) as (_ & c & _ & _ & _ & ->).
    apply IH.
  - by apply getRandomInt_never_raises in E.
Qed.

(** With separate sets, none of them holding a used character, every
    set still has all its characters when its turn comes. *)
Lemma ensure_never_raises pw sets used draws e rest :
  separateSets sets →
  (∀ c, c ∈ buildAllCharsArray sets → c ∉ used) →
  ensure pw sets used draws ≠ Raise e rest.
Proof.
  revert pw used draws.
  induction sets as [|set more IH]; intros pw used draws [Hne Hnodup] Hfresh;
    simpl; [done|].
  unfold buildAllCharsArray in *. rewrite fmap_cons in *. simpl in *.
  apply Forall_cons in Hne as [Hne Hmore].
  apply NoDup_app in Hnodup as (_ & Hcross & Hnodup).
  rewrite available_all by (intros c Hc; apply Hfresh; set_solver).
  case_decide as Hlen; [by apply nil_length_inv in Hlen|]. unfold bind.
  destruct (getRandomInt _ draws) as [r rest0|e0 rest0|] eqn:E; [| |done].
  - destruct (JS.read (split set) r) as [char|] eqn:Hchar; [|].
    + apply IH; [done|]. intros c Hc.
      apply read_elem_of in Hchar.
      assert (c ≠ char) by (intros ->; by eapply Hcross).
      assert (c ∉ used) by (apply Hfresh; set_solver). set_solver.
    + destruct (read_sampled _ _ _ _ Hne E) as (_ & c & _ & _ & _ & ?).
      congruence.
  - by apply getRandomInt_never_raises in E.
Qed.

Lemma stable_ensure pw sets used : stable (ensure pw sets used).
Proof.
  revert pw used. induction sets as [|set more IH]; intros pw used; simpl.
  { apply stable_ret. }
  case_decide; [apply stable_raise|].
  apply stable_bind; [apply stable_getRandomInt|]. intros r.
  destruct (JS.read _ r); [apply IH|apply stable_raise].
Qed.

Lemma completes_ensure pw sets used :
  Forall (λ set, Z.of_nat (length (split set)) ≤ maxUint32) sets →
  completes (ensure pw sets used).
Proof.
  revert pw used. induction sets as [|set more IH]; intros pw used Hsmall; simpl.
  { apply completes_ret. }
  apply Forall_cons in Hsmall as [Hsmall Hmore].
  case_decide as Hlen; [apply completes_raise|].
  apply (completes_bind _ _ (λ _, True)); [apply stable_getRandomInt| |done|].
  - apply completes_getRandomInt. split; [lia|].
    etrans; [|exact Hsmall]. apply inj_le.
    destruct (noDuplicate options); [apply length_filter|done].
  - intros r _. destruct (JS.read _ r); [by apply IH|apply completes_raise].
Qed.

End seed.

(** ** Shuffling *)

Lemma swap_defined (pw : list ascii) (i : nat) (z : Z) :
  (i < length pw)%nat → 0 ≤ z < Z.of_nat i + 1 →
  ∃ ci cj, pw !! i = Some ci ∧ pw !! Z.to_nat z = Some cj
           ∧ swap pw i (Num z) = Some (<[Z.to_nat z := ci]> (<[i := cj]> pw)).
Proof.
  intros Hi Hz.
  destruct (lookup_lt_is_Some_2 pw i) as [ci Hci]; [done|].
  destruct (lookup_lt_is_Some_2 pw (Z.to_nat z)) as [cj Hcj]; [lia|].
  exists ci, cj. unfold swap. by rewrite read_Num, Hci, Hcj by lia.
Qed.

Lemma insert_Permutation {A} (l : list A) (i : nat) (x y : A) :
  l !! i = Some x → <[i:=y]> l ≡ₚ y :: delete i l.
Proof.
  revert i. induction l as [|a l IH]; intros [|i] Hi; simplify_eq/=; [done|].
  rewrite (IH i) by done. apply Permutation_swap.
Qed.

(** Exchanging two cells rearranges the array. *)
Lemma swap_Permutation (pw pw' : list ascii) (i : nat) (j : number) :
  swap pw i j = Some pw' → pw' ≡ₚ pw.
Proof.
  unfold swap. destruct (JS.read pw j) as [cj|] eqn:Hj; [|done].
  destruct (pw !! i) as [ci|] eqn:Hi; [|done]. destruct j as [z|]; [|done].
  intros [= <-]. unfold JS.read in Hj. case_decide; [|done].
  set (k := Z.to_nat z) in *. set (m := <[i:=cj]> pw).
  assert (m !! k = Some cj) as Hk.
  { unfold m. destruct (decide (i = k)) as [->|Hne].
    - apply list_lookup_insert_eq. by eapply lookup_lt_Some.
    - by rewrite list_lookup_insert_ne. }
  apply (Permutation_cons_inv (a:=cj)).
  rewrite (insert_Permutation m k cj ci Hk), Permutation_swap.
  rewrite <- (delete_Permutation m k cj Hk). unfold m.
  rewrite (insert_Permutation pw i ci cj Hi), Permutation_swap.
  by rewrite <- (delete_Permutation pw i ci Hi).
Qed.

(** The shuffle returns a rearrangement of the array it is given. *)
Lemma shuffle_Permutation (i : nat) (pw pw' : list ascii) draws rest :
  shuffle i pw draws = Ret pw' rest → pw' ≡ₚ pw.
Proof.
  revert pw draws. induction i as [|i IH]; intros pw draws; simpl.
  { by intros [= <- <-]. }
  unfold bind. destruct (getRandomInt _ draws) as [j rest0|e rest0|]; [|done..].
  destruct (swap pw (S i) j) as [swapped|] eqn:Hswap; [|done].
  intros ->%IH. by eapply swap_Permutation.
Qed.

Lemma shuffle_never_raises (i : nat) (pw : list ascii) draws e rest :
  (i < length pw)%nat → shuffle i pw draws ≠ Raise e rest.
Proof.
  revert pw draws. induction i as [|i IH]; intros pw draws Hi; simpl; [done|].
  unfold bind. destruct (getRandomInt _ draws) as [j rest0|e0 rest0|] eqn:E; [| |done].
  - apply getRandomInt_range in E as (z & -> & Hz); [|lia].
    destruct (swap_defined pw (S i) z) as (ci & cj & _ & _ & ->); [done..|].
    apply IH. rewrite !length_insert. lia.
  - by apply getRandomInt_never_raises in E.
Qed.

Lemma stable_shuffle (i : nat) (pw : list ascii) : stable (shuffle i pw).
Proof.
  revert pw. induction i as [|i IH]; intros pw; simpl; [apply stable_ret|].
  apply stable_bind; [apply stable_getRandomInt|]. intros j.
  destruct (swap pw (S i) j); [apply IH|apply stable_raise].
Qed.

Lemma completes_shuffle (i : nat) (pw : list ascii) :
  Z.of_nat i + 1 ≤ maxUint32 → completes (shuffle i pw).
Proof.
  revert pw. induction i as [|i IH]; intros pw Hi; simpl; [apply completes_ret|].
  apply (completes_bind _ _ (λ _, True)); [apply stable_getRandomInt| |done|].
  - apply completes_getRandomInt. lia.
  - intros j _. destruct (swap pw (S i) j); [apply IH; lia|apply completes_raise].
Qed.

(** ** Filling never gets stuck while some character can be accepted *)

Section fill_completes.
Context (allCharsArray : list ascii) (len : Z) (options : Options).
Context (Inv : list ascii → gset ascii → Prop).
Hypothesis Hsize : Z.of_nat (length allCharsArray) ≤ maxUint32.
Hypothesis Hcan : ∀ pw used,
  Inv pw used → Z.of_nat (length pw) < len →
  ∃ i char, allCharsArray !! i = Some char ∧ accepted options pw used char = true.
Hypothesis Hkeep : ∀ pw used char,
  Inv pw used → char ∈ allCharsArray → accepted options pw used char = true →
  Inv (pw ++ [char]) ({[char]} ∪ used).

Local Notation fill pw used :=
  (fillPassword pw allCharsArray len options used).

Lemma fillPassword_completes_upto (n : nat) (pw : list ascii) (used : gset ascii) :
  (Z.to_nat (len - Z.of_nat (length pw)) ≤ n)%nat → Inv pw used →
  completes (fill pw used).
Proof.
  revert pw used. induction n as [|n IHn]; intros pw used Hn HInv draws.
  { exists []. rewrite fillPassword_exit by lia. done. }
  destruct (decide (Z.of_nat (length pw) < len)) as [Hlen|Hlen];
    [|exists []; by rewrite fillPassword_exit].
  destruct (Hcan pw used HInv Hlen) as (i & char & Hchar & Hacc).
  assert (allCharsArray ≠ []) as Hne by (intros Hnil; by rewrite Hnil in Hchar).
  assert (1 ≤ Z.of_nat (length allCharsArray)) as Hpos
    by (apply lookup_lt_Some in Hchar; lia).
  remember (length draws) as k eqn:Hk. revert draws Hk.
  induction (lt_wf k) as [k _ IHk]; intros draws ->.
  destruct (getRandomInt (Z.of_nat (length allCharsArray)) draws)
    as [r rest|e rest|] eqn:E.
  - destruct (read_sampled _ _ _ _ Hne E) as (z & c & -> & Hz & Hc & _).
    pose proof (getRandomInt_consumes _ _ _ _ E) as Hshort.
    destruct (accepted options pw used c) eqn:Hc_acc.
    + destruct (IHn (pw ++ [c]) ({[c]} ∪ used)) with (draws := rest)
        as [more Hmore].
      { rewrite length_app. simpl. lia. }
      { apply Hkeep; [done| |done]. by eapply list_elem_of_lookup_2. }
      exists more.
      rewrite (fillPassword_sampled _ _ _ pw used (draws ++ more) z c (rest ++ more));
        [|done|by apply (stable_Ret _ _ _ _ _ (stable_getRandomInt _))|lia|done].
      by rewrite Hc_acc.
    + destruct (IHk (length rest) Hshort rest eq_refl) as [more Hmore].
      exists more.
      rewrite (fillPassword_sampled _ _ _ pw used (draws ++ more) z c (rest ++ more));
        [|done|by apply (stable_Ret _ _ _ _ _ (stable_getRandomInt _))|lia|done].
      by rewrite Hc_acc.
  - by apply getRandomInt_never_raises in E.
  - destruct (IHn (pw ++ [char]) ({[char]} ∪ used)) with (draws := @nil Z)
      as [more Hmore].
    { rewrite length_app. simpl. lia. }
    { apply Hkeep; [done| |done]. by eapply list_elem_of_lookup_2. }
    exists (Z.of_nat i :: more).
    apply lookup_lt_Some in Hchar as Hi.
    rewrite (fillPassword_sampled _ _ _ pw used _ (Z.of_nat i) char more);
      [by rewrite Hacc|done| |lia|by rewrite Nat2Z.id].
    rewrite getRandomInt_resume by done. apply getRandomInt_accepts; lia.
Qed.

Lemma fillPassword_completes (pw : list ascii) (used : gset ascii) :
  Inv pw used → completes (fill pw used).
Proof. by apply (fillPassword_completes_upto _ pw used (le_n _)). Qed.

End fill_completes.

(** ** One attempt *)

Lemma charCodeAt_inj (c1 c2 : ascii) : charCodeAt c1 = charCodeAt c2 → c1 = c2.
Proof.
  unfold charCodeAt. intros H%Nat2Z.inj.
  by rewrite <- (ascii_nat_embedding c1), <- (ascii_nat_embedding c2), H.
Qed.

(** At most two codes are one away from the code of the last character,
    so one of any three distinct characters is not sequential to it. *)
Lemma not_sequential_exists (arr pw : list ascii) :
  NoDup arr → (3 ≤ length arr)%nat →
  ∃ i char, arr !! i = Some char ∧ sequential pw char = false.
Proof.
  intros Hnodup Hlen. unfold sequential.
  destruct (last pw) as [prev|]; [|destruct arr as [|c ?]; [simpl in *; lia|by exists 0%nat, c]].
  destruct arr as [|c0 [|c1 [|c2 arr]]]; simpl in Hlen; try lia.
  apply NoDup_cons in Hnodup as [H0 Hnodup].
  apply NoDup_cons in Hnodup as [H1 _].
  assert (charCodeAt c0 ≠ charCodeAt c1) by (intros ?%charCodeAt_inj; set_solver).
  assert (charCodeAt c0 ≠ charCodeAt c2) by (intros ?%charCodeAt_inj; set_solver).
  assert (charCodeAt c1 ≠ charCodeAt c2) by (intros ?%charCodeAt_inj; set_solver).
  destruct (decide (Z.abs (charCodeAt c0 - charCodeAt prev) = 1));
    [|exists 0%nat, c0; by rewrite bool_decide_eq_false_2].
  destruct (decide (Z.abs (charCodeAt c1 - charCodeAt prev) = 1));
    [|exists 1%nat, c1; by rewrite bool_decide_eq_false_2].
  exists 2%nat, c2. rewrite bool_decide_eq_false_2 by lia. done.
Qed.

(** Fewer used characters than the array has distinct ones leaves one
    unused. *)
Lemma unused_exists (arr : list ascii) (used : gset ascii) :
  NoDup arr → (size used < length arr)%nat → ∃ c, c ∈ arr ∧ c ∉ used.
Proof.
  intros Hnodup Hsize.
  destruct (decide (Forall (λ c, c ∈ used) arr)) as [Hall|Hsome].
  - assert (list_to_set (C:=gset ascii) arr ⊆ used) as Hsub.
    { intros c Hc%elem_of_list_to_set. by eapply Forall_forall in Hall. }
    apply subseteq_size in Hsub. rewrite size_list_to_set in Hsub by done. lia.
  - apply not_Forall_Exists in Hsome; [|apply _].
    apply Exists_exists in Hsome as (c & Hc & Hnot). by exists c.
Qed.

Lemma split_join (a : list ascii) : split (join a) = a.
Proof. apply list_ascii_of_string_of_list_ascii. Qed.

Section attempt.
Context (characterSets : list string) (allCharsArray : list ascii).
Context (len : Z) (options : Options).

Local Notation trial := (attempt characterSets allCharsArray len options).

Lemma available_nonempty (used : gset ascii) :
  NoDup allCharsArray → (size used < length allCharsArray)%nat →
  (if noDuplicate options then filter (λ char, char ∉ used) allCharsArray
   else allCharsArray) ≠ [].
Proof.
  intros Hnodup Hsize.
  destruct (unused_exists _ _ Hnodup Hsize) as (c & Hc & Hnot).
  destruct (noDuplicate options); [|by intros ->; set_solver].
  intros Hnil. assert (c ∈ filter (λ char, char ∉ used) allCharsArray) as Hin
    by by apply list_elem_of_filter.
  rewrite Hnil in Hin. set_solver.
Qed.

(** The password of an attempt that returns: as long as the requested
    length or the number of sets, whichever is larger, and made of
    characters of the sets and of the array. *)
Lemma attempt_returns draws password rest :
  trial draws = Ret password rest →
  Z.of_nat (length (split password))
    = Z.max len (Z.of_nat (length characterSets))
  ∧ ∀ P : ascii → Prop,
      Forall P (buildAllCharsArray characterSets) → Forall P allCharsArray →
      Forall P (split password).
Proof.
  unfold attempt, bind.
  destruct (ensureCharacterTypeInclusion _ _ _ _ draws)
    as [[pw0 used0] rest0|e rest0|] eqn:Eseed; [|done..].
  destruct (fillPassword _ _ _ _ _ rest0) as [[pw1 used1] rest1|e rest1|] eqn:Efill;
    [|done..].
  destruct (shuffle _ _ rest1) as [pw2 rest2|e rest2|] eqn:Eshuffle; [|done..].
  intros [= <- <-]. rewrite split_join.
  pose proof (ensure_length _ _ _ _ _ _ _ _ Eseed) as [Hlen0 _].
  apply ensure_returns in Eseed as (seeds & -> & _ & Hseeds).
  apply fillPassword_returns in Efill as (new & -> & Hnew & Hlen1).
  apply shuffle_Permutation in Eshuffle as Hperm. split.
  - rewrite Hperm, Hlen1. simpl in *. lia.
  - intros P Hsets Harr. rewrite Hperm. simpl. apply Forall_app. split.
    + clear -Hseeds Hsets. unfold buildAllCharsArray in Hsets.
      induction Hseeds as [|c set seeds sets Hc _ IH]; [done|].
      rewrite fmap_cons in Hsets. simpl in Hsets.
      apply Forall_app in Hsets as [Hset Hsets].
      constructor; [by eapply Forall_forall in Hset|by apply IH].
    + eapply Forall_impl; [exact Hnew|]. intros c Hc. simpl in Hc.
      assert (c ∈ allCharsArray) as Hin by by eapply available_subset.
      by eapply Forall_forall in Harr.
Qed.

(** Separate sets and an array with more distinct characters than there
    are sets: neither helper throws, and no read misses its array. *)
Lemma attempt_never_raises draws e rest :
  separateSets characterSets → NoDup allCharsArray →
  (length characterSets < length allCharsArray)%nat →
  trial draws ≠ Raise e rest.
Proof.
  intros Hsep Hnodup Hmore. unfold attempt, bind.
  destruct (ensureCharacterTypeInclusion _ _ _ _ draws)
    as [[pw0 used0] rest0|e0 rest0|] eqn:Eseed; [| |done].
  - pose proof (ensure_length _ _ _ _ _ _ _ _ Eseed) as [Hlen0 Hsize0].
    rewrite size_empty in Hsize0. simpl in *.
    destruct (fillPassword _ _ _ _ _ rest0) as [[pw1 used1] rest1|e1 rest1|] eqn:Efill;
      [| |done].
    + destruct (shuffle _ _ rest1) as [pw2 rest2|e2 rest2|] eqn:Eshuffle; [done| |done].
      destruct pw1 as [|c pw1]; [done|].
      apply shuffle_never_raises in Eshuffle; [done|]. simpl. lia.
    + apply fillPassword_never_raises in Efill; [done|].
      apply available_nonempty; [done|lia].
  - apply ensure_never_raises in Eseed; [done..|set_solver].
Qed.

(** Every array read of an attempt is inside its array. *)
Lemma attempt_reads_defined draws rest :
  trial draws ≠ Raise UndefinedRead rest.
Proof.
  unfold attempt, bind.
  destruct (ensureCharacterTypeInclusion _ _ _ _ draws)
    as [[pw0 used0] rest0|e0 rest0|] eqn:Eseed; [| |done].
  - destruct (fillPassword _ _ _ _ _ rest0) as [[pw1 used1] rest1|e1 rest1|] eqn:Efill;
      [| |done].
    + destruct (shuffle _ _ rest1) as [pw2 rest2|e2 rest2|] eqn:Eshuffle; [done| |done].
      destruct pw1 as [|c pw1]; [done|].
      apply shuffle_never_raises in Eshuffle; [done|]. simpl. lia.
    + intros [= -> _]. by apply fillPassword_raises in Efill.
  - intros [= -> _]. by apply ensure_raises in Eseed.
Qed.

Lemma stable_attempt : stable trial.
Proof.
  unfold attempt. apply stable_bind; [apply stable_ensure|]. intros [pw0 used0].
  apply stable_bind; [apply stable_fillPassword|]. intros [pw1 used1].
  apply stable_bind; [apply stable_shuffle|]. intros pw2. apply stable_ret.
Qed.

(** An attempt is never stuck unless both restrictions are set: without
    [noDuplicate] one of the first three characters of the array is not
    sequential to the last one placed, and with [noDuplicate] alone an
    unused character is left as long as the password is shorter than the
    array. *)
Lemma completes_attempt :
  noDuplicate options && noSequential options = false →
  NoDup allCharsArray → (3 ≤ length allCharsArray)%nat →
  Z.of_nat (length allCharsArray) ≤ maxUint32 →
  Forall (λ set, Z.of_nat (length (split set)) ≤ maxUint32) characterSets →
  Z.of_nat (length characterSets) ≤ maxUint32 →
  len ≤ maxUint32 →
  (noDuplicate options = true → len ≤ Z.of_nat (length allCharsArray)) →
  completes trial.
Proof.
  intros Hnotboth Hnodup Hthree Hsize Hsets Hcount Hlen Hfits. unfold attempt.
  apply (completes_bind _ _ (λ seeded,
    length seeded.1 = length characterSets
    ∧ (size seeded.2 ≤ length seeded.1)%nat));
    [apply stable_ensure|by apply completes_ensure| |].
  { intros draws [pw0 used0] rest Eseed.
    apply ensure_length in Eseed as [Hl Hsz]. rewrite size_empty in Hsz.
    simpl in *. lia. }
  intros [pw0 used0] [Hlen0 Hsize0]. simpl in Hlen0, Hsize0.
  apply (completes_bind _ _ (λ filled,
    Z.of_nat (length filled.1) = Z.max len (Z.of_nat (length pw0))));
    [apply stable_fillPassword| | |].
  - destruct (noDuplicate options) eqn:Hdup.
    + simpl in Hnotboth. specialize (Hfits eq_refl).
      apply (fillPassword_completes _ _ _
        (λ pw used, (size used ≤ length pw)%nat ∧ used0 ⊆ used)); [| | |done].
      * etrans; [|exact Hsize]. apply inj_le, length_filter.
      * intros pw used [Hsz Hsub] Hshort.
        destruct (unused_exists allCharsArray used Hnodup) as (c & Hc & Hnot); [lia|].
        assert (c ∈ filter (λ char, char ∉ used0) allCharsArray) as Hin
          by (apply list_elem_of_filter; set_solver).
        apply list_elem_of_lookup_1 in Hin as [i Hi]. exists i, c.
        split; [done|]. unfold accepted.
        by rewrite Hdup, Hnotboth, bool_decide_eq_false_2.
      * intros pw used c [Hsz Hsub] _ _. split; [|set_solver].
        rewrite length_app. simpl.
        pose proof (size_union_le {[c]} used) as Hle.
        rewrite size_singleton in Hle. lia.
    + apply (fillPassword_completes _ _ _ (λ _ _, True)); [done| |done|done].
      intros pw used _ _.
      destruct (not_sequential_exists allCharsArray pw Hnodup Hthree)
        as (i & c & Hc & Hseq).
      exists i, c. split; [done|]. unfold accepted.
      rewrite Hdup, Hseq. simpl. by rewrite andb_false_r.
  - intros draws [pw1 used1] rest Efill.
    by apply fillPassword_returns in Efill as (_ & _ & _ & ?).
  - intros [pw1 used1] Hlen1. simpl in Hlen1.
    apply (completes_bind _ _ (λ _, True));
      [apply stable_shuffle|apply completes_shuffle; lia|done|].
    intros pw2 _. apply completes_ret.
Qed.

End attempt.

(** ** The character sets of the page *)

(** Only the five boxes that [buildCharacterSets] reads matter to it. *)
Ltac each_selection options :=
  destruct options as [[] [] [] [] [] ? ?]; try discriminate.

Ltac by_evaluation := compute_done.

Lemma base_alphabets_disjoint :
  NoDup (split numbers ++ split lowercase ++ split uppercase ++ split symbols).
Proof. by_evaluation. Qed.

Lemma buildCharacterSets_separate (options : Options) :
  separateSets (buildCharacterSets options).
Proof.
  unfold separateSets. each_selection options; split; by_evaluation.
Qed.

Lemma buildCharacterSets_sizes (options : Options) :
  anySelected options = true →
  (1 ≤ length (buildCharacterSets options) ≤ 4)%nat
  ∧ (8 ≤ length (buildAllCharsArray (buildCharacterSets options)) ≤ 91)%nat
  ∧ Forall (λ set, (8 ≤ length (split set) ≤ 29)%nat) (buildCharacterSets options).
Proof.
  intros Hany. each_selection options; split_and!; by_evaluation.
Qed.

Lemma buildAllCharsArray_selected (options : Options) :
  Forall (λ c, c ∈ selectedAlphabet options)
    (buildAllCharsArray (buildCharacterSets options)).
Proof. each_selection options; by_evaluation. Qed.

Lemma buildAllCharsArray_noSimilar (options : Options) :
  noSimilar options = true →
  Forall (λ c, c ∉ similarChars) (buildAllCharsArray (buildCharacterSets options)).
Proof. intros Hsim. each_selection options; by_evaluation. Qed.

(** ** The loop of the handler *)

Section batch.
Context (characterSets : list string) (allCharsArray : list ascii).
Context (len : Z) (options : Options).

Local Notation trial := (attempt characterSets allCharsArray len options).
Local Notation run fuel := (batchLoop fuel characterSets allCharsArray len options).
Local Notation Inv := (batchInv characterSets allCharsArray len options).

(** The two states that a turn can lead to. *)
Local Notation repeated b :=
  {| generatedPasswords := generatedPasswords b; attempts := attempts b + 1;
     shown := shown b |}.
Local Notation grown b password :=
  {| generatedPasswords := {[password]} ∪ generatedPasswords b;
     attempts := attempts b + 1;
     shown := shown b ++
       [{| passwordText := password;
           strengthInfo :=
             getPasswordStrength
               (calculateEntropy len (Z.of_nat (length allCharsArray)));
           entropy := calculateEntropy len (Z.of_nat (length allCharsArray)) |}] |}.

Lemma batchLoop_stop fuel b draws :
  ¬ ((size (generatedPasswords b) < 5)%nat ∧ attempts b < 1000) →
  run fuel b draws = Left b draws.
Proof.
  intros Hstop. destruct fuel; simpl.
  all: destruct (bool_decide (size (generatedPasswords b) < 5)%nat) eqn:H1;
    destruct (bool_decide (attempts b < 1000)) eqn:H2; simpl; try done.
  all: apply bool_decide_eq_true in H1, H2; tauto.
Qed.

Lemma batchLoop_turn fuel b draws :
  (size (generatedPasswords b) < 5)%nat → attempts b < 1000 →
  run (S fuel) b draws =
    match trial draws with
    | Starved => StillLooping
    | Raise e rest => Threw e (repeated b) rest
    | Ret password rest =>
        if bool_decide (password ∈ generatedPasswords b)
        then run fuel (repeated b) rest
        else run fuel (grown b password) rest
    end.
Proof.
  intros H1 H2. simpl. by rewrite !bool_decide_eq_true_2 by done.
Qed.

Lemma batchInv_repeated b :
  Inv b → attempts b < 1000 → Inv (repeated b).
Proof. intros [] ?. split; simpl; try done; lia. Qed.

Lemma batchInv_grown b password draws rest :
  Inv b → (size (generatedPasswords b) < 5)%nat → attempts b < 1000 →
  trial draws = Ret password rest → password ∉ generatedPasswords b →
  Inv (grown b password).
Proof.
  intros [Hatt Hsize Hacc Hdist Hshown Hentries] Hfew Hless Htry Hnew.
  assert (size ({[password]} ∪ generatedPasswords b)
          = S (size (generatedPasswords b))) as Hgrow.
  { rewrite size_union by set_solver. by rewrite size_singleton. }
  split; simpl.
  - lia.
  - lia.
  - lia.
  - rewrite fmap_app. simpl. apply NoDup_app. split_and!; [done| |].
    + intros text Hin ->%list_elem_of_singleton. apply Hnew.
      rewrite Hshown. by apply elem_of_list_to_set.
    + apply NoDup_singleton.
  - rewrite fmap_app, list_to_set_app_L, <- Hshown. simpl. set_solver.
  - apply Forall_app. split; [done|]. constructor; [|done]. simpl. eauto.
Qed.

(** Leaving the loop: five passwords are shown or the thousandth attempt
    has been made, and what was shown before is still shown. *)
Lemma batchLoop_Left fuel b draws b' rest :
  run fuel b draws = Left b' rest → Inv b →
  Inv b'
  ∧ attempts b ≤ attempts b'
  ∧ shown b `prefix_of` shown b'
  ∧ (size (generatedPasswords b') = 5%nat ∨ attempts b' = 1000).
Proof.
  revert b draws. induction fuel as [|fuel IH]; intros b draws Hrun HInv.
  all: destruct (decide ((size (generatedPasswords b) < 5)%nat ∧ attempts b < 1000))
    as [[Hfew Hless]|Hstop].
  all: try (rewrite batchLoop_stop in Hrun by done; injection Hrun as <- <-;
            split_and!; [done|lia|done|destruct HInv; lia]).
  - simpl in Hrun. by rewrite !bool_decide_eq_true_2 in Hrun by done.
  - rewrite batchLoop_turn in Hrun by done.
    destruct (trial draws) as [password rest0|e rest0|] eqn:Htry; [|done..].
    case_bool_decide as Hin.
    + apply IH in Hrun as (? & ? & ? & ?); [|by apply batchInv_repeated].
      simpl in *. split_and!; [done|lia|done|done].
    + apply IH in Hrun as (? & ? & Hpre & ?); [|by eapply batchInv_grown].
      simpl in *. split_and!; [done|lia| |done].
      etrans; [|exact Hpre]. by apply prefix_app_r.
Qed.

(** An exception leaves the loop only out of an attempt. *)
Lemma batchLoop_Threw fuel b draws e b' rest :
  run fuel b draws = Threw e b' rest → Inv b →
  (∃ draws', trial draws' = Raise e rest)
  ∧ Inv b' ∧ shown b `prefix_of` shown b'.
Proof.
  revert b draws. induction fuel as [|fuel IH]; intros b draws Hrun HInv.
  all: destruct (decide ((size (generatedPasswords b) < 5)%nat ∧ attempts b < 1000))
    as [[Hfew Hless]|Hstop].
  all: try (by rewrite batchLoop_stop in Hrun by done).
  - simpl in Hrun. by rewrite !bool_decide_eq_true_2 in Hrun by done.
  - rewrite batchLoop_turn in Hrun by done.
    destruct (trial draws) as [password rest0|e0 rest0|] eqn:Htry; [| |done].
    + case_bool_decide as Hin.
      * apply IH in Hrun as (? & ? & ?); [|by apply batchInv_repeated]. done.
      * apply IH in Hrun as (? & ? & Hpre); [|by eapply batchInv_grown].
        split_and!; [done..|]. etrans; [|exact Hpre]. by apply prefix_app_r.
    + injection Hrun as <- <- <-. split_and!; [by exists draws| |done].
      by apply batchInv_repeated.
Qed.

(** Fuel for the turns that the counter still allows is never what keeps
    the loop looping: an attempt that is starved is. *)
Lemma batch_fuel fuel b draws :
  1000 ≤ attempts b + Z.of_nat fuel →
  run fuel b draws = StillLooping → ∃ draws', trial draws' = Starved.
Proof.
  revert b draws. induction fuel as [|fuel IH]; intros b draws Hfuel Hrun.
  all: destruct (decide ((size (generatedPasswords b) < 5)%nat ∧ attempts b < 1000))
    as [[Hfew Hless]|Hstop].
  all: try (by rewrite batchLoop_stop in Hrun by done).
  - lia.
  - rewrite batchLoop_turn in Hrun by done.
    destruct (trial draws) as [password rest|e rest|] eqn:E; [|done|by exists draws].
    case_bool_decide; apply IH in Hrun; (done || simpl; lia).
Qed.

(** With a thousand turns of fuel the loop is still looping only if an
    attempt is. *)
Lemma batchLoop_completes fuel b draws :
  1000 ≤ attempts b + Z.of_nat fuel → completes trial →
  ∃ more, run fuel b (draws ++ more) ≠ StillLooping.
Proof.
  intros Hfuel Htry. revert b draws Hfuel.
  induction fuel as [|fuel IH]; intros b draws Hfuel.
  all: destruct (decide ((size (generatedPasswords b) < 5)%nat ∧ attempts b < 1000))
    as [[Hfew Hless]|Hstop].
  all: try (exists []; by rewrite batchLoop_stop).
  - lia.
  - destruct (Htry draws) as [more1 H1].
    destruct (trial (draws ++ more1)) as [password rest|e rest|] eqn:E; [| |done].
    + destruct (decide (password ∈ generatedPasswords b)) as [Hin|Hin].
      * destruct (IH (repeated b) rest) as [more2 H2]; [simpl; lia|].
        exists (more1 ++ more2). rewrite app_assoc, batchLoop_turn by done.
        rewrite (stable_Ret _ _ more2 _ _ (stable_attempt _ _ _ _) E).
        by rewrite bool_decide_eq_true_2.
      * destruct (IH (grown b password) rest) as [more2 H2]; [simpl; lia|].
        exists (more1 ++ more2). rewrite app_assoc, batchLoop_turn by done.
        rewrite (stable_Ret _ _ more2 _ _ (stable_attempt _ _ _ _) E).
        by rewrite bool_decide_eq_false_2.
    + exists more1. rewrite batchLoop_turn by done. by rewrite E.
Qed.

End batch.

(** ** The click handler *)

Section click.
Context (len : Z) (options : Options).

Local Notation sets := (buildCharacterSets options).
Local Notation all := (buildAllCharsArray (buildCharacterSets options)).
Local Notation start := {| generatedPasswords := ∅; attempts := 0; shown := [] |}.

Lemma batchInv_start : batchInv sets all len options start.
Proof.
  split; cbn [generatedPasswords attempts shown fmap list_fmap];
    rewrite ?size_empty; try done; try lia; constructor.
Qed.

Lemma generateOne_never_raises draws e rest :
  anySelected options = true → generateOne options len draws ≠ Raise e rest.
Proof.
  intros Hany. pose proof (buildCharacterSets_sizes options Hany) as (? & ? & _).
  apply attempt_never_raises; [apply buildCharacterSets_separate| |lia].
  apply buildCharacterSets_separate.
Qed.

Lemma generateOne_completes :
  anySelected options = true →
  noDuplicate options && noSequential options = false →
  len ≤ maxUint32 →
  (noDuplicate options = true → len ≤ Z.of_nat (length all)) →
  completes (generateOne options len).
Proof.
  intros Hany Hnotboth Hlen Hfits.
  pose proof (buildCharacterSets_sizes options Hany) as (Hsets & Hall & Heach).
  apply completes_attempt; try done; unfold maxUint32; try lia.
  - apply buildCharacterSets_separate.
  - eapply Forall_impl; [exact Heach|]. simpl. lia.
Qed.

(** Past the two checks, the handler returns what the loop leaves: five
    passwords and no message, or fewer with the notice after the
    thousandth attempt. *)
Lemma onGenerateClick_returned page draws page' rest n :
  anySelected options = true →
  noDuplicate options && bool_decide (Z.of_nat (length all) < len) = false →
  onGenerateClick len options page draws = Returned page' rest n →
  ∃ b, batchInv sets all len options b
       ∧ n = attempts b ∧ passwords page' = shown b
       ∧ (size (generatedPasswords b) = 5%nat ∧ errorMessage page' = None
          ∨ (size (generatedPasswords b) < 5)%nat ∧ attempts b = 1000
            ∧ errorMessage page' = Some NotEnoughUnique).
Proof.
  intros Hany Hfits. unfold onGenerateClick. rewrite Hany, Hfits.
  cbn [negb].
  destruct (batchLoop 1000 sets all len options start draws)
    as [b rest0|e b rest0|] eqn:Hrun; [| |done].
  - apply batchLoop_Left in Hrun as (HInv & _ & _ & Hend); [|apply batchInv_start].
    pose proof (inv_size _ _ _ _ _ HInv).
    pose proof (inv_accepted _ _ _ _ _ HInv).
    intros [= <- <- <-]. exists b.
    destruct (bool_decide (size (generatedPasswords b) < 5)%nat) eqn:Hfew;
      (split_and!; [done..|]); [right|left].
    + apply bool_decide_eq_true in Hfew.
      split_and!; [done| |done]. destruct Hend; [lia|done].
    + apply bool_decide_eq_false in Hfew. split; [lia|done].
  - apply batchLoop_Threw in Hrun as ([draws' Hraise] & _); [|apply batchInv_start].
    by apply generateOne_never_raises in Hraise.
Qed.

Lemma onGenerateClick_completes page draws :
  noDuplicate options && noSequential options = false →
  len ≤ maxUint32 →
  ∃ more, onGenerateClick len options page (draws ++ more) ≠ Running.
Proof.
  intros Hnotboth Hlen. unfold onGenerateClick.
  destruct (anySelected options) eqn:Hany; cbn [negb]; [|by exists []].
  destruct (noDuplicate options && bool_decide (Z.of_nat (length all) < len))
    eqn:Hfits; [by exists []|].
  destruct (batchLoop_completes sets all len options 1000 start draws)
    as [more Hmore]; [cbn [attempts]; lia| |].
  - apply generateOne_completes; [done..|].
    intros Hdup. rewrite Hdup in Hfits. simpl in Hfits.
    apply bool_decide_eq_false in Hfits. lia.
  - exists more.
    by destruct (batchLoop 1000 sets all len options start (draws ++ more)).
Qed.

End click.

(** * The claims *)

(** ** C1: sequential neighbours *)

(** C1: with noSequential set the final password is meant to hold no two
    neighbours whose codes differ by one.  The code refuses such a
    neighbour only while filling; the shuffle that follows can bring two
    such characters together, and the seeded characters are never
    checked.  For lowercase letters, length 3 and the draws 0, 3, 1, 1, 1
    the array is [a; d; b] after filling and the password shown is
    "abd"; for digits and symbols, length 2, the two seeds "0" and "/"
    are neighbours before and after the shuffle. *)
Theorem noSequential_not_kept_by_shuffle :
  generateOne (withNoSequential onlyLowercase) 3 [0; 3; 1; 1; 1] = Ret "abd" []
  ∧ hasSequentialPair (split "abd") = true
  ∧ (let seeded := ensureCharacterTypeInclusion []
         (buildCharacterSets onlyLowercase) (withNoSequential onlyLowercase) ∅ in
     let filled pw used :=
       fillPassword pw (split lowercase) 3 (withNoSequential onlyLowercase) used in
     bind seeded (λ st, filled st.1 st.2) [0; 3; 1; 1; 1]
     = Ret (split "adb", {["a"%char; "d"%char; "b"%char]}) [1; 1])
  ∧ hasSequentialPair (split "adb") = false
  ∧ generateOne (withNoSequential numbersAndSymbols) 2 [0; 26; 1] = Ret "0/" []
  ∧ hasSequentialPair (split "0/") = true.
Proof. split_and!; vm_compute; reflexivity. Qed.

(** ** C2: termination *)

(** A state of the filling loop in which every character of the array is
    refused stays as it is whatever is drawn. *)
Lemma fillPassword_stuck (allCharsArray : list ascii) (len : Z) (options : Options)
    (pw : list ascii) (used : gset ascii) (draws : list Z) :
  Z.of_nat (length pw) < len → allCharsArray ≠ [] →
  Forall (λ c, accepted options pw used c = false) allCharsArray →
  fillPassword pw allCharsArray len options used draws = Starved.
Proof.
  intros Hlen Hne Hall.
  cut (∀ pw' used', pw' = pw → used' = used →
         fillPassword pw' allCharsArray len options used' draws = Starved);
    [by eauto|].
  intros pw' used'. revert pw' used' draws.
  apply (fillPassword_ind allCharsArray len options
    (λ pw' used' draws out, pw' = pw → used' = used → out = Starved)).
  - intros ??? Hexit -> ->. lia.
  - done.
  - done.
  - intros ?????? _ _ _ _ IH. exact IH.
  - intros ? ? ? z char ? _ _ Hchar Hacc _ -> ->.
    apply list_elem_of_lookup_2 in Hchar.
    eapply Forall_forall in Hall; [|exact Hchar]. congruence.
Qed.

(** One accepted draw of the filling loop, with the test evaluated. *)
Ltac fill_one z char :=
  erewrite (fillPassword_sampled _ _ _ _ _ _ z char);
    [|simpl; lia
     |apply getRandomInt_accepts; [by vm_compute|simpl; lia]
     |lia
     |reflexivity];
  match goal with
  | |- context [accepted ?o ?pw ?used ?c] =>
      replace (accepted o pw used c) with true by (vm_compute; reflexivity)
  end.

Lemma generateOne_stuck (more : list Z) :
  generateOne (withNoSequential (withNoDuplicate (withNoSimilar onlyNumbers))) 8
    ([2; 3; 5; 2; 4; 6; 0] ++ more) = Starved.
Proof.
  unfold generateOne, attempt.
  change (buildCharacterSets _) with ["23456789"%string].
  set (options := withNoSequential _).
  assert (ensureCharacterTypeInclusion [] ["23456789"%string] options ∅ [2]
          = Ret (split "4", {["4"%char]}) []) as Hseed by (vm_compute; reflexivity).
  change ([2; 3; 5; 2; 4; 6; 0] ++ more)
    with ([2] ++ 3 :: 5 :: 2 :: 4 :: 6 :: 0 :: more).
  erewrite bind_Ret; [|exact (stable_Ret _ [2] _ _ _ (stable_ensure _ _ _ _) Hseed)].
  cbn beta iota. apply bind_Starved.
  change (if noDuplicate options then _ else _) with (split "2356789").
  cbn [app].
  fill_one 3 "6"%char. fill_one 5 "8"%char. fill_one 2 "5"%char.
  fill_one 4 "7"%char. fill_one 6 "9"%char. fill_one 0 "2"%char.
  apply fillPassword_stuck; [simpl; lia|done|]. compute_done.
Qed.

Lemma onGenerateClick_attempts (len : Z) (options : Options) (page : Page)
    draws page' rest n :
  onGenerateClick len options page draws = Returned page' rest n → 0 ≤ n ≤ 1000.
Proof.
  destruct (anySelected options) eqn:Hany;
    [|unfold onGenerateClick; rewrite Hany; cbn [negb]; by intros [= _ _ <-]].
  destruct (noDuplicate options
            && bool_decide (Z.of_nat (length (buildAllCharsArray
                 (buildCharacterSets options))) < len)) eqn:Hfits;
    [unfold onGenerateClick; rewrite Hany, Hfits; cbn [negb]; by intros [= _ _ <-]|].
  intros (b & HInv & -> & _)%onGenerateClick_returned; [|done..].
  apply HInv.
Qed.

(** C2: the filling loop of an attempt need not end.  With digits
    without 0 and 1, noDuplicates and noSequential, length 8 (the
    precheck passes, 8 characters exist), the draws 2, 3, 5, 2, 4, 6, 0
    place 4, 6, 8, 5, 7, 9, 2; the one unused character 3 is sequential
    to 2.  In that state every character of the array passed to
    [fillPassword] is refused and the array is not empty, so the loop
    stays there whatever is drawn next: the first attempt never ends and
    the handler never returns, with none of its 1000 attempts
    completed. *)
Lemma filling_can_loop_forever :
  let options := withNoSequential (withNoDuplicate (withNoSimilar onlyNumbers)) in
  let placed := split "4685792" in
  let array := split "2356789" in
  anySelected options = true
  ∧ 8 ≤ Z.of_nat (length (buildAllCharsArray (buildCharacterSets options)))
  ∧ (∀ more, generateOne options 8 ([2; 3; 5; 2; 4; 6; 0] ++ more) = Starved)
  ∧ (∀ page more,
       onGenerateClick 8 options page ([2; 3; 5; 2; 4; 6; 0] ++ more) = Running)
  ∧ array ≠ []
  ∧ Forall (λ char, accepted options placed (list_to_set placed) char = false) array
  ∧ (∀ more,
       fillPassword placed array 8 options (list_to_set placed) more = Starved).
Proof.
  split_and!.
  - done.
  - by vm_compute.
  - apply generateOne_stuck.
  - intros page more. unfold onGenerateClick.
    change (negb (anySelected _)) with false.
    change (noDuplicate _ && bool_decide _) with false. cbn iota.
    rewrite (batchLoop_turn _ _ _ _ 999)
      by (cbn [generatedPasswords attempts]; rewrite ?size_empty; lia).
    pose proof (generateOne_stuck more) as Hstuck. unfold generateOne in Hstuck.
    by rewrite Hstuck.
  - done.
  - compute_done.
  - intros more. apply fillPassword_stuck; [simpl; lia|done|]. compute_done.
Qed.

(** ** C5: the length check *)

(** C5: when noDuplicate is set and the requested length exceeds the
    number of characters of the whole array, the handler shows the
    cannot-generate message and returns at once: no draw is taken, no
    attempt is made, and nothing is added to the passwords shown. *)
Theorem length_exceeding_alphabet_fails_immediately (len : Z) (options : Options)
    (page : Page) (draws : list Z)
    (Hany : anySelected options = true)
    (Hdup : noDuplicate options = true)
    (Hlong : Z.of_nat (length (buildAllCharsArray (buildCharacterSets options))) < len) :
  onGenerateClick len options page draws
  = Returned {| errorMessage := Some (CannotGenerateWithoutDuplicates len);
                passwords := passwords page |} draws 0.
Proof.
  unfold onGenerateClick. rewrite Hany, Hdup.
  by rewrite bool_decide_eq_true_2 by done.
Qed.

Lemma length_exceeding_alphabet_fails_immediately_witness :
  anySelected (withNoDuplicate onlyNumbers) = true
  ∧ noDuplicate (withNoDuplicate onlyNumbers) = true
  ∧ Z.of_nat (length (buildAllCharsArray
                (buildCharacterSets (withNoDuplicate onlyNumbers)))) = 10
  ∧ onGenerateClick 15 (withNoDuplicate onlyNumbers) blankPage [4; 8; 15]
    = Returned {| errorMessage := Some (CannotGenerateWithoutDuplicates 15);
                  passwords := [] |} [4; 8; 15] 0.
Proof.
  split_and!; [reflexivity..|].
  apply (length_exceeding_alphabet_fails_immediately 15
           (withNoDuplicate onlyNumbers) blankPage [4; 8; 15]);
    [reflexivity|reflexivity|vm_compute; reflexivity].
Defined.

(** The loop as a run of attempts: it leaves with the passwords that its
    attempts returned, accepted at their first occurrence and appended
    to what was shown, and it made each attempt with fewer than five
    passwords accepted. *)
Lemma batchLoop_trace (characterSets : list string) (allCharsArray : list ascii)
    (len : Z) (options : Options) fuel b draws b' rest :
  batchLoop fuel characterSets allCharsArray len options b draws = Left b' rest →
  ∃ returned,
    returnedBy (attempt characterSets allCharsArray len options)
      (length returned) draws = Some (returned, rest)
    ∧ attempts b' = attempts b + Z.of_nat (length returned)
    ∧ shown b'
      = shown b ++ (containerOf len allCharsArray
                      <$> acceptedOf (generatedPasswords b) returned)
    ∧ ∀ k, (k < length returned)%nat →
        (size (generatedPasswords b)
         + length (acceptedOf (generatedPasswords b) (take k returned)) < 5)%nat.
Proof.
  revert b draws. induction fuel as [|fuel IH]; intros b draws Hrun.
  all: destruct (decide ((size (generatedPasswords b) < 5)%nat ∧ attempts b < 1000))
    as [[Hfew Hless]|Hstop].
  all: try (rewrite batchLoop_stop in Hrun by done; injection Hrun as <- <-;
            exists []; simpl; rewrite app_nil_r;
            split_and!; [done|lia|done|intros; lia]).
  - simpl in Hrun. by rewrite !bool_decide_eq_true_2 in Hrun by done.
  - rewrite batchLoop_turn in Hrun by done.
    destruct (attempt characterSets allCharsArray len options draws)
      as [password rest0|e rest0|] eqn:Htry; [|done..].
    case_bool_decide as Hin; apply IH in Hrun
      as (later & Hlater & Hatt & Hshown & Hmade); simpl in Hatt, Hshown, Hmade.
    + exists (password :: later). simpl. rewrite Htry, Hlater.
      destruct (decide (password ∈ generatedPasswords b)); [|done].
      split_and!; [done|lia|done|].
      intros [|k] Hk; simpl; [lia|].
      destruct (decide (password ∈ generatedPasswords b)); [|done].
      apply Hmade. lia.
    + assert (size ({[password]} ∪ generatedPasswords b)
              = S (size (generatedPasswords b))) as Hgrow.
      { rewrite size_union by set_solver. by rewrite size_singleton. }
      exists (password :: later). simpl. rewrite Htry, Hlater.
      destruct (decide (password ∈ generatedPasswords b)); [done|].
      split_and!; [done|lia| |].
      * rewrite Hshown, <- app_assoc. done.
      * intros [|k] Hk; simpl; [lia|].
        destruct (decide (password ∈ generatedPasswords b)); [done|].
        simpl. specialize (Hmade k ltac:(lia)). lia.
Qed.

(** Past the two checks, what the handler returns is what the loop,
    started with nothing accepted, left. *)
Lemma onGenerateClick_left (len : Z) (options : Options) page draws page' rest n :
  anySelected options = true →
  noDuplicate options
  && bool_decide (Z.of_nat (length (buildAllCharsArray
       (buildCharacterSets options))) < len) = false →
  onGenerateClick len options page draws = Returned page' rest n →
  ∃ b, batchLoop 1000 (buildCharacterSets options)
         (buildAllCharsArray (buildCharacterSets options)) len options
         {| generatedPasswords := ∅; attempts := 0; shown := [] |} draws
       = Left b rest
       ∧ n = attempts b ∧ passwords page' = shown b.
Proof.
  intros Hany Hfits. unfold onGenerateClick. rewrite Hany, Hfits.
  cbn [negb].
  destruct (batchLoop 1000 _ _ len options _ draws)
    as [b rest0|e b rest0|] eqn:Hrun; [| |done].
  - intros [= <- <- <-]. exists b. split_and!; [done..|].
    by destruct (bool_decide (size (generatedPasswords b) < 5)%nat).
  - apply batchLoop_Threw in Hrun as ([draws' Hraise] & _); [|apply batchInv_start].
    by apply generateOne_never_raises in Hraise.
Qed.

(** ** C6: the loop of attempts *)

(** C6: past the two checks, the handler makes at most 1000 attempts;
    it shows at most five passwords, all different; it ends with five
    passwords and no message, or, after the thousandth attempt, with the
    fewer passwords accepted so far still shown and the not-enough
    notice.  With five passwords accepted no further attempt is made, and
    an attempt whose password is already accepted changes nothing but the
    attempt counter; an attempt whose password is new adds it to the
    accepted set and appends its container; after 1000 attempts no
    further attempt is made.  The handler made its [n] attempts in a
    row on the draws, each with fewer than five passwords accepted, and
    the page shows exactly the containers of the passwords they
    returned, each at its first occurrence, in that order. *)
Theorem batch_of_at_most_1000_attempts (len : Z) (options : Options)
    (page : Page) (draws : list Z) (page' : Page) (rest : list Z) (n : Z)
    (Hany : anySelected options = true)
    (Hfits : noDuplicate options
             && bool_decide (Z.of_nat (length (buildAllCharsArray
                  (buildCharacterSets options))) < len) = false)
    (Hclick : onGenerateClick len options page draws = Returned page' rest n) :
  let sets := buildCharacterSets options in
  let all := buildAllCharsArray sets in
  0 ≤ n ≤ 1000
  ∧ (length (passwords page') ≤ 5)%nat
  ∧ Z.of_nat (length (passwords page')) ≤ n
  ∧ NoDup (passwordText <$> passwords page')
  ∧ (length (passwords page') = 5%nat ∧ errorMessage page' = None
     ∨ (length (passwords page') < 5)%nat ∧ n = 1000
       ∧ errorMessage page' = Some NotEnoughUnique)
  ∧ (∀ fuel b draws0,
       size (generatedPasswords b) = 5%nat →
       batchLoop fuel sets all len options b draws0 = Left b draws0)
  ∧ (∀ fuel b draws0 password rest0,
       (size (generatedPasswords b) < 5)%nat → attempts b < 1000 →
       attempt sets all len options draws0 = Ret password rest0 →
       password ∈ generatedPasswords b →
       batchLoop (S fuel) sets all len options b draws0
       = batchLoop fuel sets all len options
           {| generatedPasswords := generatedPasswords b;
              attempts := attempts b + 1; shown := shown b |} rest0)
  ∧ (∀ fuel b draws0 password rest0,
       (size (generatedPasswords b) < 5)%nat → attempts b < 1000 →
       attempt sets all len options draws0 = Ret password rest0 →
       password ∉ generatedPasswords b →
       batchLoop (S fuel) sets all len options b draws0
       = batchLoop fuel sets all len options
           {| generatedPasswords := {[password]} ∪ generatedPasswords b;
              attempts := attempts b + 1;
              shown := shown b ++ [containerOf len all password] |} rest0)
  ∧ (∀ fuel b draws0,
       1000 ≤ attempts b →
       batchLoop fuel sets all len options b draws0 = Left b draws0)
  ∧ (∃ returned,
       Z.of_nat (length returned) = n
       ∧ returnedBy (attempt sets all len options) (length returned) draws
         = Some (returned, rest)
       ∧ passwords page' = containerOf len all <$> acceptedOf ∅ returned
       ∧ ∀ k, (k < length returned)%nat →
           (length (acceptedOf ∅ (take k returned)) < 5)%nat).
Proof.
  intros sets all.
  destruct (onGenerateClick_left len options page draws page' rest n
              Hany Hfits Hclick) as (b1 & Hrun & Hn & Hpage).
  apply batchLoop_trace in Hrun as (returned & Hreturned & Hmade & Htrace & Hfew).
  cbn [generatedPasswords attempts shown app] in Hmade, Htrace, Hfew.
  rewrite size_empty in Hfew.
  destruct (onGenerateClick_returned len options page draws page' rest n
              Hany Hfits Hclick) as (b & HInv & -> & Hleft & Hend).
  rewrite Hleft.
  destruct HInv as [Hatt Hsize Hacc Hdist Hshown _].
  assert (size (generatedPasswords b) = length (shown b)) as Hcount.
  { rewrite Hshown, size_list_to_set by done. by rewrite length_fmap. }
  rewrite <- Hcount. split_and!; try lia; try done.
  - intros fuel b0 draws0 Hfive. apply batchLoop_stop. lia.
  - intros fuel b0 draws0 password rest0 Hfew0 Hless Htry Hin.
    rewrite batchLoop_turn by done. fold sets all.
    by rewrite Htry, bool_decide_eq_true_2.
  - intros fuel b0 draws0 password rest0 Hfew0 Hless Htry Hin.
    rewrite batchLoop_turn by done. fold sets all.
    by rewrite Htry, bool_decide_eq_false_2.
  - intros fuel b0 draws0 Hdone. apply batchLoop_stop. lia.
  - exists returned. split_and!; [lia|done| |exact Hfew].
    unfold all, sets. by rewrite <- Htrace, <- Hleft.
Qed.

Lemma batch_of_at_most_1000_attempts_witness :
  anySelected onlyNumbers = true
  ∧ onGenerateClick 1 onlyNumbers blankPage (replicate 1000 0)
    = Returned
        {| errorMessage := Some NotEnoughUnique;
           passwords :=
             [{| passwordText := "0";
                 strengthInfo := {| label := "Weak"; className := "strength-weak" |};
                 entropy := Fixed 332 |}] |} [] 1000
  ∧ (1 < 5)%nat ∧ 0 ≤ 1000 ≤ 1000.
Proof.
  assert (onGenerateClick 1 onlyNumbers blankPage (replicate 1000 0)
    = Returned
        {| errorMessage := Some NotEnoughUnique;
           passwords :=
             [{| passwordText := "0";
                 strengthInfo := {| label := "Weak"; className := "strength-weak" |};
                 entropy := Fixed 332 |}] |} [] 1000) as Hclick
    by (vm_compute; reflexivity).
  split; [reflexivity|]. split; [exact Hclick|]. split; [lia|].
  exact (proj1 (batch_of_at_most_1000_attempts 1 onlyNumbers blankPage
                  (replicate 1000 0) _ [] 1000 eq_refl eq_refl Hclick)).
Defined.

(** ** C7: the length of a candidate *)

(** C7, as stated, fails for a length below the number of selected
    classes: with digits and lowercase letters and length 1, seeding
    alone places two characters and the password has length 2. *)
Lemma candidate_longer_than_requested :
  anySelected numbersAndLowercase = true
  ∧ noDuplicate numbersAndLowercase = false
  ∧ generateOne numbersAndLowercase 1 [7; 1; 0] = Ret "b7" []
  ∧ Z.of_nat (length (split "b7")) ≠ 1.
Proof. split_and!; [reflexivity|reflexivity|vm_compute; reflexivity|by vm_compute]. Qed.

(** C7, amended: with at least one class selected and noDuplicate unset,
    an attempt never throws, is never stuck (for a 32-bit length, some
    continuation of the source always makes it return), and the password
    it returns has the requested length or the number of selected
    classes, whichever is larger; so exactly the requested length once
    that is at least the number of classes. *)
Theorem candidate_length_without_noDuplicate (options : Options) (len : Z)
    (Hany : anySelected options = true)
    (Hdup : noDuplicate options = false) :
  let classes := Z.of_nat (length (buildCharacterSets options)) in
  1 ≤ classes ≤ 4
  ∧ (∀ draws e rest, generateOne options len draws ≠ Raise e rest)
  ∧ (∀ draws password rest,
       generateOne options len draws = Ret password rest →
       Z.of_nat (length (split password)) = Z.max len classes)
  ∧ (∀ draws password rest,
       classes ≤ len →
       generateOne options len draws = Ret password rest →
       Z.of_nat (length (split password)) = len)
  ∧ (len ≤ maxUint32 →
     ∀ draws, ∃ more password rest,
       generateOne options len (draws ++ more) = Ret password rest).
Proof.
  intros classes.
  pose proof (buildCharacterSets_sizes options Hany) as (Hsets & _ & _).
  assert (∀ draws password rest,
            generateOne options len draws = Ret password rest →
            Z.of_nat (length (split password)) = Z.max len classes) as Hmax.
  { intros draws password rest Hone. by apply attempt_returns in Hone as [? _]. }
  split_and!; try (unfold classes; lia).
  - intros draws e rest. by apply generateOne_never_raises.
  - exact Hmax.
  - intros draws password rest Hle Hone. rewrite (Hmax _ _ _ Hone). lia.
  - intros Hlen draws.
    destruct (generateOne_completes len options Hany) with (draws := draws)
      as [more Hmore]; [by rewrite Hdup|done|by rewrite Hdup|].
    destruct (generateOne options len (draws ++ more))
      as [password rest|e rest|] eqn:Hone;
      [|by apply generateOne_never_raises in Hone|done].
    by exists more, password, rest.
Qed.

Lemma candidate_length_without_noDuplicate_witness :
  anySelected numbersAndLowercase = true
  ∧ noDuplicate numbersAndLowercase = false
  ∧ generateOne numbersAndLowercase 3 [7; 1; 30; 2; 1] = Ret "7bu" []
  ∧ Z.of_nat (length (split "7bu")) = Z.max 3 2.
Proof.
  assert (generateOne numbersAndLowercase 3 [7; 1; 30; 2; 1] = Ret "7bu" [])
    as Hone by (vm_compute; reflexivity).
  split_and!; [reflexivity|reflexivity|exact Hone|].
  pose proof (candidate_length_without_noDuplicate numbersAndLowercase 3
                eq_refl eq_refl) as (_ & _ & Hmax & _).
  exact (Hmax _ _ _ Hone).
Defined.

(** ** C8: the characters of a candidate *)

(** C8: every character of a password that an attempt returns belongs to
    the union of the base alphabets of the ticked classes, and, with
    noSimilar set, is none of i, l, 1, L, o, 0, O. *)
Theorem candidate_characters (options : Options) (len : Z) (draws : list Z)
    (password : string) (rest : list Z)
    (Hone : generateOne options len draws = Ret password rest) :
  Forall (λ c, c ∈ selectedAlphabet options) (split password)
  ∧ Forall (λ c, c ∈ buildAllCharsArray (buildCharacterSets options))
      (split password)
  ∧ (noSimilar options = true →
     Forall (λ c, c ∉ split "il1Lo0O") (split password)).
Proof.
  apply attempt_returns in Hone as [_ HP]. split_and!.
  - apply HP; apply buildAllCharsArray_selected.
  - apply HP; by apply Forall_forall.
  - intros Hsim. apply HP; by apply buildAllCharsArray_noSimilar.
Qed.

Lemma candidate_characters_witness :
  generateOne (withNoSimilar numbersAndLowercase) 4 [0; 7; 20; 3; 1; 0; 0]
  = Ret "5p2h" []
  ∧ Forall (λ c, c ∉ split "il1Lo0O") (split "5p2h").
Proof.
  assert (generateOne (withNoSimilar numbersAndLowercase) 4 [0; 7; 20; 3; 1; 0; 0]
          = Ret "5p2h" []) as Hone by (vm_compute; reflexivity).
  split; [exact Hone|].
  pose proof (candidate_characters _ _ _ _ _ Hone) as (_ & _ & Hsim).
  exact (Hsim eq_refl).
Defined.

(** ** C9: entropy and strength *)


Lemma getPasswordStrength_thresholds (h : Z) :
  (h < 5000 → label (getPasswordStrength (Fixed h)) = "Weak")
  ∧ (5000 ≤ h < 7000 → label (getPasswordStrength (Fixed h)) = "Fair")
  ∧ (7000 ≤ h < 9000 → label (getPasswordStrength (Fixed h)) = "Good")
  ∧ (9000 ≤ h < 11000 → label (getPasswordStrength (Fixed h)) = "Strong")
  ∧ (11000 ≤ h < 13000 → label (getPasswordStrength (Fixed h)) = "Very Strong")
  ∧ (13000 ≤ h < 15000 →
     label (getPasswordStrength (Fixed h)) = "Extremely Strong")
  ∧ (15000 ≤ h → label (getPasswordStrength (Fixed h)) = "Unbreakable").
Proof.
  unfold getPasswordStrength, below.
  split_and!; intros Hh; repeat case_bool_decide; (done || lia).
Qed.








(** ** C10: the two structural errors *)

(** C10: the four base alphabets share no character, and every selected
    set keeps at least eight characters after the similar ones are
    removed; so seeding never throws, the array that filling samples
    from is never empty when filling starts, no attempt throws, and the
    handler never shows the message of a caught exception. *)
Theorem structural_errors_never_fire (options : Options) (len : Z)
    (Hany : anySelected options = true) :
  let sets := buildCharacterSets options in
  let all := buildAllCharsArray sets in
  NoDup (split numbers ++ split lowercase ++ split uppercase ++ split symbols)
  ∧ separateSets sets
  ∧ Forall (λ set, (8 ≤ length (split set))%nat) sets
  ∧ (∀ draws e rest,
       ensureCharacterTypeInclusion [] sets options ∅ draws ≠ Raise e rest)
  ∧ (∀ draws pw used rest,
       ensureCharacterTypeInclusion [] sets options ∅ draws = Ret (pw, used) rest →
       (if noDuplicate options then filter (λ char, char ∉ used) all else all) ≠ [])
  ∧ (∀ draws e rest, generateOne options len draws ≠ Raise e rest)
  ∧ (∀ page draws page' rest n e,
       onGenerateClick len options page draws = Returned page' rest n →
       errorMessage page' ≠ Some (Caught e)).
Proof.
  intros sets all.
  pose proof (buildCharacterSets_separate options) as Hsep.
  pose proof (buildCharacterSets_sizes options Hany) as (Hsets & Hall & Heach).
  fold sets all in Hsep, Hsets, Hall, Heach.
  split_and!.
  - apply base_alphabets_disjoint.
  - exact Hsep.
  - eapply Forall_impl; [exact Heach|]. simpl. lia.
  - intros draws e rest. apply ensure_never_raises; [done|set_solver].
  - intros draws pw used rest Hseed.
    apply ensure_length in Hseed as [_ Hused]. rewrite size_empty in Hused.
    apply available_nonempty; [apply Hsep|]. fold sets in Hused. lia.
  - intros draws e rest. by apply generateOne_never_raises.
  - intros page draws page' rest n e Hclick.
    destruct (noDuplicate options
              && bool_decide (Z.of_nat (length all) < len)) eqn:Hfits.
    + unfold onGenerateClick in Hclick. fold sets all in Hclick.
      rewrite Hany, Hfits in Hclick. cbn [negb] in Hclick.
      by injection Hclick as <- _ _.
    + apply onGenerateClick_returned in Hclick
        as (b & _ & _ & _ & [[_ ->]|(_ & _ & ->)]); done.
Qed.

Lemma structural_errors_never_fire_witness :
  anySelected (withNoDuplicate (withNoSimilar onlyNumbers)) = true
  ∧ ∀ draws e rest,
      generateOne (withNoDuplicate (withNoSimilar onlyNumbers)) 8 draws
      ≠ Raise e rest.
Proof.
  split; [reflexivity|].
  pose proof (structural_errors_never_fire
                (withNoDuplicate (withNoSimilar onlyNumbers)) 8 eq_refl)
    as (_ & _ & _ & _ & _ & Hnever & _).
  exact Hnever.
Defined.

(** * Further properties of the script *)

(** ** The sampler at the edges of its range *)

(** X1: for a 32-bit bound [b], the limit lies within [b] of 2^32: a
    draw below [2^32 - b] is never redrawn, at most [b] of the 2^32
    values are, and [0xFFFFFFFF] always is (the limit is computed from
    [0xFFFFFFFF], not from 2^32). *)
Theorem getRandomInt_redraws_few (b d : Z) (rest : list Z)
    (Hb : 1 ≤ b ≤ maxUint32) :
  2 ^ 32 - b ≤ maxUint32 / b * b ≤ maxUint32
  ∧ (Uint32 d < 2 ^ 32 - b →
     getRandomInt b (d :: rest) = Ret (Num (Uint32 d mod b)) rest)
  ∧ getRandomInt b (maxUint32 :: rest) = getRandomInt b rest.
Proof.
  assert (2 ^ 32 - b ≤ maxUint32 / b * b ≤ maxUint32) as Hlim.
  { rewrite <- limit_floor by lia.
    rewrite Z.rem_mod_nonneg by (unfold maxUint32; lia).
    pose proof (Z.mod_pos_bound maxUint32 b ltac:(lia)).
    unfold maxUint32 in *. lia. }
  split_and!; [lia..| |].
  - intros Hd. rewrite getRandomInt_step by lia.
    by rewrite bool_decide_eq_false_2 by lia.
  - rewrite getRandomInt_step by lia.
    rewrite Uint32_small by (by vm_compute).
    by rewrite bool_decide_eq_true_2 by lia.
Qed.

Lemma getRandomInt_redraws_few_witness :
  1 ≤ 10 ≤ maxUint32
  ∧ getRandomInt 10 [maxUint32; 4294967295 - 10; 3] = Ret (Num 5) [3].
Proof.
  assert (1 ≤ 10 ≤ maxUint32) as Hb by (by vm_compute).
  split; [exact Hb|].
  pose proof (getRandomInt_redraws_few 10 (4294967295 - 10) [3] Hb)
    as (_ & Hkept & _).
  pose proof (getRandomInt_redraws_few 10 0 [4294967295 - 10; 3] Hb)
    as (_ & _ & Hskip).
  rewrite Hskip. apply Hkept. by vm_compute.
Defined.

(** X2: a bound above [0xFFFFFFFF] makes the limit 0, so every draw is
    redrawn and the call never returns. *)
Theorem getRandomInt_never_returns_above_maxUint32 (b : Z) (draws : list Z)
    (Hb : maxUint32 < b) :
  limit b = Num 0 ∧ getRandomInt b draws = Starved.
Proof.
  assert (maxUint32 / b * b = 0) as Hzero.
  { rewrite Z.div_small by (unfold maxUint32 in *; lia). lia. }
  split.
  - rewrite limit_pos by (unfold maxUint32 in *; lia).
    by rewrite limit_floor, Hzero by (unfold maxUint32 in *; lia).
  - apply getRandomInt_all_rejected; [unfold maxUint32 in *; lia|].
    rewrite Hzero. apply Forall_forall. intros x _. apply Uint32_range.
Qed.

Lemma getRandomInt_never_returns_above_maxUint32_witness :
  maxUint32 < 2 ^ 32 ∧ getRandomInt (2 ^ 32) [0; 1; 2] = Starved.
Proof.
  assert (maxUint32 < 2 ^ 32) as Hb by (by vm_compute).
  split; [exact Hb|].
  exact (proj2 (getRandomInt_never_returns_above_maxUint32 (2 ^ 32) [0; 1; 2] Hb)).
Defined.

(** X3: the sign of the bound plays no part: [%] takes the sign of its
    dividend, which is never negative here. *)
Theorem getRandomInt_ignores_sign (b : Z) (draws : list Z) :
  getRandomInt (- b) draws = getRandomInt b draws.
Proof.
  assert (∀ x, JS.rem (Num x) (Num (- b)) = JS.rem (Num x) (Num b)) as Hrem.
  { intros x. unfold JS.rem.
    destruct (decide (b = 0)) as [->|Hne]; [done|].
    destruct (decide (- b = 0)); [lia|]. by rewrite Z.rem_opp_r by done. }
  induction draws as [|d draws IH]; [done|].
  rewrite !getRandomInt_cons. unfold limit. by rewrite !Hrem, IH.
Qed.

(** ** What seeding, filling and shuffling keep *)

Lemma ensure_distinct (options : Options) pw sets used draws pw' used' rest :
  noDuplicate options = true →
  ensureCharacterTypeInclusion pw sets options used draws = Ret (pw', used') rest →
  ∃ new, pw' = pw ++ new ∧ NoDup new ∧ ∀ c, c ∈ new → c ∉ used.
Proof.
  intros Hdup. revert pw used draws.
  induction sets as [|set more IH]; intros pw used draws; simpl.
  { intros [= <- <- <-]. exists []. rewrite app_nil_r.
    split_and!; [done|constructor|set_solver]. }
  rewrite Hdup. case_decide; [done|]. unfold bind.
  destruct (getRandomInt _ draws) as [r rest0|e rest0|] eqn:E; [|done..].
  destruct (JS.read _ r) as [char|] eqn:Hchar; [|done].
  apply read_elem_of, list_elem_of_filter in Hchar as [Hfresh _].
  intros (new & -> & Hnodup & Hnew)%IH.
  exists (char :: new). rewrite <- app_assoc. split_and!; [done| |].
  - constructor; [|done]. intros Hin%Hnew. set_solver.
  - intros c [->|Hin]%elem_of_cons; [done|]. apply Hnew in Hin. set_solver.
Qed.

Lemma fillPassword_distinct (allCharsArray : list ascii) (len : Z)
    (options : Options) pw used draws pw' used' rest :
  noDuplicate options = true →
  fillPassword pw allCharsArray len options used draws = Ret (pw', used') rest →
  ∃ new, pw' = pw ++ new ∧ NoDup new ∧ ∀ c, c ∈ new → c ∉ used.
Proof.
  intros Hdup. revert pw' used' rest.
  apply (fillPassword_ind allCharsArray len options
    (λ pw used draws out, ∀ pw' used' rest, out = Ret (pw', used') rest →
       ∃ new, pw' = pw ++ new ∧ NoDup new ∧ ∀ c, c ∈ new → c ∉ used)).
  - intros ??? _ ??? [= <- <- <-]. exists []. rewrite app_nil_r.
    split_and!; [done|constructor|set_solver].
  - done.
  - done.
  - intros ?????? _ _ _ _ IH. exact IH.
  - intros pw0 used0 draws0 z char rest0 _ _ _ Hacc IH pw' used' rest E.
    destruct (IH _ _ _ E) as (new & -> & Hnodup & Hnew).
    unfold accepted in Hacc. rewrite Hdup in Hacc.
    apply andb_true_iff in Hacc as [Hfresh%negb_true_iff _].
    simpl in Hfresh. apply bool_decide_eq_false in Hfresh.
    exists (char :: new). rewrite <- app_assoc. split_and!; [done| |].
    + constructor; [|done]. intros Hin%Hnew. set_solver.
    + intros c [->|Hin]%elem_of_cons; [done|]. apply Hnew in Hin. set_solver.
Qed.

Lemma hasSequentialPair_cons (c1 c2 : ascii) (l : list ascii) :
  hasSequentialPair (c1 :: c2 :: l)
  = bool_decide (Z.abs (charCodeAt c2 - charCodeAt c1) = 1)
    || hasSequentialPair (c2 :: l).
Proof. done. Qed.

Lemma fillPassword_not_sequential (allCharsArray : list ascii) (len : Z)
    (options : Options) pw used draws pw' used' rest :
  noSequential options = true →
  fillPassword pw allCharsArray len options used draws = Ret (pw', used') rest →
  hasSequentialPair (drop (length pw - 1) pw') = false.
Proof.
  intros Hseq. revert pw' used' rest.
  apply (fillPassword_ind allCharsArray len options
    (λ pw used draws out, ∀ pw' used' rest, out = Ret (pw', used') rest →
       hasSequentialPair (drop (length pw - 1) pw') = false)).
  - intros pw0 ?? _ ??? [= <- <- <-].
    destruct pw0 as [|c pw0 _] using rev_ind; [done|].
    rewrite length_app. simpl.
    replace (length pw0 + 1 - 1)%nat with (length pw0) by lia.
    by rewrite drop_app_length.
  - done.
  - done.
  - intros ?????? _ _ _ _ IH. exact IH.
  - intros pw0 used0 draws0 z char rest0 _ _ _ Hacc IH pw' used' rest E.
    specialize (IH _ _ _ E).
    apply fillPassword_returns in E as (new & -> & _).
    rewrite length_app in IH. simpl in IH.
    replace (length pw0 + 1 - 1)%nat with (length pw0) in IH by lia.
    rewrite <- app_assoc, drop_app_length in IH. simpl in IH.
    unfold accepted in Hacc. rewrite Hseq in Hacc.
    apply andb_true_iff in Hacc as [_ Hnot%negb_true_iff]. simpl in Hnot.
    rewrite <- app_assoc. simpl.
    destruct pw0 as [|prev pw0 _] using rev_ind; [done|].
    rewrite length_app. simpl.
    replace (length pw0 + 1 - 1)%nat with (length pw0) by lia.
    rewrite <- app_assoc, drop_app_length. simpl.
    unfold sequential in Hnot. rewrite last_snoc in Hnot.
    change (hasSequentialPair (prev :: char :: new))
      with (bool_decide (Z.abs (charCodeAt char - charCodeAt prev) = 1)
            || hasSequentialPair (char :: new)).
    by rewrite Hnot, IH.
Qed.

(** The password of an attempt, taken apart: the seeds, one for each set
    in the order of the sets, and the characters that filling added,
    rearranged by the shuffle. *)
Lemma attempt_shape (characterSets : list string) (allCharsArray : list ascii)
    (len : Z) (options : Options) draws password rest :
  attempt characterSets allCharsArray len options draws = Ret password rest →
  ∃ seeds new,
    split password ≡ₚ seeds ++ new
    ∧ Forall2 (λ c set, c ∈ split set) seeds characterSets
    ∧ Forall (λ c, c ∈ allCharsArray) new
    ∧ (noDuplicate options = true → NoDup (seeds ++ new))
    ∧ (noSequential options = true →
       hasSequentialPair (drop (length seeds - 1) (seeds ++ new)) = false).
Proof.
  unfold attempt, bind.
  destruct (ensureCharacterTypeInclusion _ _ _ _ draws)
    as [[pw0 used0] rest0|e rest0|] eqn:Eseed; [|done..].
  destruct (fillPassword _ _ _ _ _ rest0) as [[pw1 used1] rest1|e rest1|] eqn:Efill;
    [|done..].
  destruct (shuffle _ _ rest1) as [pw2 rest2|e rest2|] eqn:Eshuffle; [|done..].
  intros [= <- <-]. rewrite split_join.
  apply shuffle_Permutation in Eshuffle.
  pose proof (ensure_returns _ _ _ _ _ _ _ _ Eseed) as (seeds & Hpw0 & Hused0 & Hseeds).
  pose proof (fillPassword_returns _ _ _ _ _ _ _ _ _ Efill) as (new & Hpw1 & Hnew & _).
  simpl in Hpw0. subst pw0 pw1.
  exists seeds, new. split_and!; [done|done| | |].
  - eapply Forall_impl; [exact Hnew|]. intros c Hc. simpl in Hc.
    by eapply available_subset.
  - intros Hdup.
    apply (ensure_distinct _ _ _ _ _ _ _ _ Hdup) in Eseed
      as (seeds' & Heq & Hnodup0 & _).
    simpl in Heq. subst seeds'.
    apply (fillPassword_distinct _ _ _ _ _ _ _ _ _ Hdup) in Efill
      as (new' & Heq%app_inv_head & Hnodup1 & Hfresh).
    subst new'. apply NoDup_app. split_and!; [done| |done].
    intros c Hc Hin. apply (Hfresh c Hin). set_solver.
  - intros Hseq. by eapply fillPassword_not_sequential.
Qed.

(** X4: seeding appends exactly one character of each character set, in
    the order of the sets, and adds exactly these characters to
    [usedChars]; with noDuplicate the seeds are all different and none of
    them was used before. *)
Theorem seeding_takes_one_of_each_set (options : Options) (pw : list ascii)
    (sets : list string) (used : gset ascii) (draws : list Z)
    (pw' : list ascii) (used' : gset ascii) (rest : list Z)
    (Hseed : ensureCharacterTypeInclusion pw sets options used draws
             = Ret (pw', used') rest) :
  ∃ seeds,
    pw' = pw ++ seeds
    ∧ used' = list_to_set seeds ∪ used
    ∧ Forall2 (λ c set, c ∈ split set) seeds sets
    ∧ (noDuplicate options = true →
       NoDup seeds ∧ ∀ c, c ∈ seeds → c ∉ used).
Proof.
  pose proof (ensure_returns _ _ _ _ _ _ _ _ Hseed) as (seeds & Hpw & Hused & Hsets).
  exists seeds. split_and!; [done..|]. intros Hdup.
  apply (ensure_distinct _ _ _ _ _ _ _ _ Hdup) in Hseed as (seeds' & Heq & ? & ?).
  rewrite Hpw in Heq. apply app_inv_head in Heq. by subst seeds'.
Qed.

Lemma seeding_takes_one_of_each_set_witness :
  ∃ seeds,
    split "x7b" = split "x" ++ seeds
    ∧ Forall2 (λ c set, c ∈ split set) seeds [numbers; lowercase].
Proof.
  assert (∃ used', ensureCharacterTypeInclusion (split "x") [numbers; lowercase]
            (withNoDuplicate numbersAndLowercase) {["x"%char]} [7; 1; 9]
          = Ret (split "x7b", used') [9]) as [used' Hseed]
    by (eexists; vm_compute; reflexivity).
  destruct (seeding_takes_one_of_each_set _ _ _ _ _ _ _ _ Hseed)
    as (seeds & Hpw & _ & Hsets & _).
  by exists seeds.
Defined.

(** X5: with noSequential, filling never places a character next to one
    whose code is one away: from the last character that was there before
    filling on, the array that [fillPassword] leaves has no two
    sequential neighbours (the whole array, when filling starts from an
    empty one). *)
Theorem filling_places_no_sequential_neighbour (allCharsArray : list ascii)
    (len : Z) (options : Options) (pw : list ascii) (used : gset ascii)
    (draws : list Z) (pw' : list ascii) (used' : gset ascii) (rest : list Z)
    (Hseq : noSequential options = true)
    (Hfill : fillPassword pw allCharsArray len options used draws
             = Ret (pw', used') rest) :
  hasSequentialPair (drop (length pw - 1) pw') = false
  ∧ (pw = [] → hasSequentialPair pw' = false).
Proof.
  pose proof (fillPassword_not_sequential _ _ _ _ _ _ _ _ _ Hseq Hfill) as Hnone.
  split; [done|]. intros ->. by rewrite drop_0 in Hnone.
Qed.

Lemma filling_places_no_sequential_neighbour_witness :
  hasSequentialPair (drop (length (split "ba") - 1) (split "bacad")) = false
  ∧ hasSequentialPair (split "bacad") = true.
Proof.
  assert (∃ used', fillPassword (split "ba") (split lowercase) 5
            (withNoSequential onlyLowercase) ∅ [1; 2; 0; 3; 4]
          = Ret (split "bacad", used') [4]) as [used' Hfill]
    by (eexists; vm_compute; reflexivity).
  split; [|reflexivity].
  exact (proj1 (filling_places_no_sequential_neighbour (split lowercase) 5
                  (withNoSequential onlyLowercase) (split "ba") ∅ _ _ _ _
                  eq_refl Hfill)).
Defined.

(** X6: with noDuplicate, the password of an attempt has no character
    twice, whatever the character sets and the array are. *)
Theorem noDuplicate_password_has_distinct_characters
    (characterSets : list string) (allCharsArray : list ascii) (len : Z)
    (options : Options) (draws : list Z) (password : string) (rest : list Z)
    (Hdup : noDuplicate options = true)
    (Htry : attempt characterSets allCharsArray len options draws
            = Ret password rest) :
  NoDup (split password).
Proof.
  apply attempt_shape in Htry as (seeds & new & Hperm & _ & _ & Hnodup & _).
  rewrite Hperm. by apply Hnodup.
Qed.

Lemma noDuplicate_password_has_distinct_characters_witness :
  generateOne (withNoDuplicate onlyNumbers) 3 [5; 5; 5; 0; 0; 0] = Ret "605" []
  ∧ NoDup (split "605").
Proof.
  assert (generateOne (withNoDuplicate onlyNumbers) 3 [5; 5; 5; 0; 0; 0]
          = Ret "605" []) as Hone by (vm_compute; reflexivity).
  split; [exact Hone|].
  exact (noDuplicate_password_has_distinct_characters _ _ _
           (withNoDuplicate onlyNumbers) _ _ _ eq_refl Hone).
Defined.

(** X7: the password of an attempt holds at least one character of every
    character set: the seeds survive filling and shuffling. *)
Theorem password_has_a_character_of_each_set
    (characterSets : list string) (allCharsArray : list ascii) (len : Z)
    (options : Options) (draws : list Z) (password : string) (rest : list Z)
    (Htry : attempt characterSets allCharsArray len options draws
            = Ret password rest) :
  Forall (λ set, ∃ c, c ∈ split set ∧ c ∈ split password) characterSets.
Proof.
  apply attempt_shape in Htry as (seeds & new & Hperm & Hseeds & _).
  assert (∀ c, c ∈ seeds → c ∈ split password) as Hin.
  { intros c Hc. rewrite Hperm. set_solver. }
  clear Hperm. induction Hseeds as [|c set seeds sets Hc _ IH]; [constructor|].
  constructor.
  - exists c. split; [done|]. apply Hin. by left.
  - apply IH. intros c' Hc'. apply Hin. by right.
Qed.

Lemma password_has_a_character_of_each_set_witness :
  generateOne numbersAndLowercase 3 [7; 1; 30; 2; 1] = Ret "7bu" []
  ∧ Forall (λ set, ∃ c, c ∈ split set ∧ c ∈ split "7bu") [numbers; lowercase].
Proof.
  assert (generateOne numbersAndLowercase 3 [7; 1; 30; 2; 1] = Ret "7bu" [])
    as Hone by (vm_compute; reflexivity).
  split; [exact Hone|].
  exact (password_has_a_character_of_each_set _ _ _ _ _ _ _ Hone).
Defined.

(** X8: with noDuplicate and the requested length equal to the number of
    characters of the whole array (the largest length that the handler
    lets through), the password is a rearrangement of the whole array. *)
Theorem noDuplicate_at_full_length_uses_every_character (options : Options)
    (draws : list Z) (password : string) (rest : list Z)
    (Hdup : noDuplicate options = true)
    (Hone : generateOne options
              (Z.of_nat (length (buildAllCharsArray (buildCharacterSets options))))
              draws = Ret password rest) :
  split password ≡ₚ buildAllCharsArray (buildCharacterSets options).
Proof.
  pose proof (attempt_returns _ _ _ _ _ _ _ Hone) as [Hlen HP].
  pose proof (attempt_shape _ _ _ _ _ _ _ Hone)
    as (seeds & new & Hperm & _ & _ & Hnodup & _).
  apply submseteq_length_Permutation.
  - apply NoDup_submseteq; [rewrite Hperm; by apply Hnodup|].
    intros c Hc. specialize (HP (λ c, c ∈ buildAllCharsArray
                                       (buildCharacterSets options))).
    eapply Forall_forall in HP; [exact HP|by apply Forall_forall
                                 |by apply Forall_forall|done].
  - lia.
Qed.

Lemma noDuplicate_at_full_length_uses_every_character_witness :
  generateOne (withNoDuplicate onlyNumbers) 10
    ([3] ++ seqZ 0 9 ++ replicate 9 0) = Ret "0124567893" []
  ∧ split "0124567893" ≡ₚ split numbers.
Proof.
  assert (generateOne (withNoDuplicate onlyNumbers) 10
            ([3] ++ seqZ 0 9 ++ replicate 9 0)
          = Ret "0124567893" []) as Hone by (vm_compute; reflexivity).
  split; [exact Hone|].
  exact (noDuplicate_at_full_length_uses_every_character
           (withNoDuplicate onlyNumbers) _ _ _ eq_refl Hone).
Defined.

(** ** The orderings that the shuffle can give *)

Lemma swap_at (pw : list ascii) (i j : nat) (ci cj : ascii) :
  pw !! i = Some ci → pw !! j = Some cj →
  swap pw i (Num (Z.of_nat j)) = Some (<[j := ci]> (<[i := cj]> pw)).
Proof.
  intros Hi Hj. unfold swap. rewrite read_Num by lia.
  by rewrite Nat2Z.id, Hi, Hj.
Qed.

(** Any ordering that rearranges the cells up to [i] and leaves the
    others in place is reached: the draw for cell [i] picks, among the
    cells up to [i], one that holds the character wanted there. *)
Lemma shuffle_reaches (i : nat) (pw target : list ascii) :
  (i < length pw)%nat → Z.of_nat i + 1 ≤ maxUint32 →
  length target = length pw →
  take (S i) target ≡ₚ take (S i) pw → drop (S i) target = drop (S i) pw →
  ∃ draws, length draws = i ∧ shuffle i pw draws = Ret target [].
Proof.
  revert pw. induction i as [|i IH]; intros pw Hi Hmax Hlen Htake Hdrop.
  { exists []. split; [done|]. simpl. unfold ret. f_equal.
    rewrite <- (take_drop 1 pw), <- (take_drop 1 target), Hdrop. f_equal.
    destruct pw as [|c pw]; [simpl in *; lia|].
    destruct target as [|c' target]; [done|]. simpl in *.
    by apply Permutation_singleton_inj in Htake as ->. }
  destruct (lookup_lt_is_Some_2 target (S i)) as [x Hx]; [lia|].
  destruct (lookup_lt_is_Some_2 pw (S i)) as [ci Hci]; [lia|].
  assert (x ∈ take (S (S i)) pw) as Hin.
  { rewrite <- Htake. apply (list_elem_of_lookup_2 _ (S i)).
    by rewrite lookup_take_lt by lia. }
  apply list_elem_of_lookup_1 in Hin as [j Hj].
  apply lookup_take_Some in Hj as [Hj Hlt].
  set (pw1 := <[j := ci]> (<[S i := x]> pw)).
  assert (swap pw (S i) (Num (Z.of_nat j)) = Some pw1) as Hswap
    by by apply swap_at.
  assert (length pw1 = length pw) as Hlen1 by (unfold pw1; by rewrite !length_insert).
  assert (pw1 !! S i = Some x) as Hx1.
  { unfold pw1. destruct (decide (j = S i)) as [->|Hne].
    - rewrite list_lookup_insert_eq by (rewrite length_insert; lia). congruence.
    - rewrite list_lookup_insert_ne by done.
      by rewrite list_lookup_insert_eq by lia. }
  assert (drop (S (S i)) pw1 = drop (S (S i)) pw) as Hdrop1
    by (unfold pw1; by rewrite !drop_insert_lt by lia).
  assert (take (S (S i)) pw1 ≡ₚ take (S (S i)) pw) as Htake1.
  { apply (Permutation_app_inv_r (drop (S (S i)) pw)).
    rewrite <- Hdrop1 at 1. rewrite !take_drop. by eapply swap_Permutation. }
  destruct (IH pw1) as (draws & Hdraws & Hrun); [lia|lia|lia| | |].
  - apply (Permutation_app_inv_r [x]).
    rewrite <- (take_S_r target (S i) x Hx), <- (take_S_r pw1 (S i) x Hx1).
    by rewrite Htake1.
  - by rewrite (drop_S target x (S i) Hx), (drop_S pw1 x (S i) Hx1), Hdrop, Hdrop1.
  - exists (Z.of_nat j :: draws). split; [simpl; lia|].
    cbn [shuffle]. erewrite bind_Ret; [|apply getRandomInt_accepts; lia].
    by rewrite Hswap.
Qed.

(** X9: the shuffle returns a rearrangement of the array, and every
    rearrangement of an array (of 32-bit length) is returned for some
    draws, one draw for each cell but the first. *)
Theorem shuffle_gives_exactly_the_rearrangements (pw target : list ascii)
    (Hlen : Z.of_nat (length pw) ≤ maxUint32) :
  (∀ draws rest,
     shuffle (length pw - 1) pw draws = Ret target rest → target ≡ₚ pw)
  ∧ (target ≡ₚ pw →
     ∃ draws, length draws = (length pw - 1)%nat
              ∧ shuffle (length pw - 1) pw draws = Ret target []).
Proof.
  split; [intros draws rest; apply shuffle_Permutation|].
  intros Hperm. pose proof (Permutation_length Hperm) as Hl.
  destruct (decide (length pw = 0%nat)) as [Hnil|Hcons].
  { apply nil_length_inv in Hnil as ->.
    apply Permutation_nil_r in Hperm as ->. by exists []. }
  apply shuffle_reaches; [lia|lia|done| |].
  - by rewrite !take_ge by lia.
  - by rewrite !drop_ge by lia.
Qed.

Lemma shuffle_gives_exactly_the_rearrangements_witness :
  Z.of_nat (length (split "abc")) ≤ maxUint32
  ∧ ∃ draws, length draws = 2%nat
             ∧ shuffle 2 (split "abc") draws = Ret (split "cab") [].
Proof.
  assert (Z.of_nat (length (split "abc")) ≤ maxUint32) as Hlen by (by vm_compute).
  split; [exact Hlen|].
  apply (proj2 (shuffle_gives_exactly_the_rearrangements
                  (split "abc") (split "cab") Hlen)).
  apply (Permutation_cons_append [_; _]).
Defined.

(** ** The array of all characters *)

(** X10: the array that filling samples from is the union of the base
    alphabets of the ticked boxes, in the order numbers, lowercase,
    uppercase, symbols, without the seven similar characters when
    noSimilar is set; there is one character set for each ticked box, and
    the array has 10, 26, 26 and 29 characters for the four boxes, or 8,
    23, 24 and 29 with noSimilar. *)
Theorem alphabet_of_a_selection (options : Options) :
  let sets := buildCharacterSets options in
  let count (flag : bool) (plain similar : Z) :=
    if flag then (if noSimilar options then similar else plain) else 0 in
  buildAllCharsArray sets
  = (if noSimilar options
     then filter (λ c, c ∉ similarChars) (selectedAlphabet options)
     else selectedAlphabet options)
  ∧ Z.of_nat (length sets)
    = Z.b2z (includeNumbers options) + Z.b2z (includeLowercase options)
      + Z.b2z (includeUppercase options) + Z.b2z (includeSymbols options)
  ∧ Z.of_nat (length (buildAllCharsArray sets))
    = count (includeNumbers options) 10 8
      + count (includeLowercase options) 26 23
      + count (includeUppercase options) 26 24
      + count (includeSymbols options) 29 29.
Proof.
  destruct options as [[] [] [] [] [] ? ?]; split_and!; vm_compute; reflexivity.
Qed.

(** ** When the helpers throw *)

(** X11: [fillPassword] throws only its ran-out error, and exactly when
    the array it samples from is empty while the password is shorter than
    requested; it then throws before drawing anything. *)
Theorem fillPassword_throws_on_empty_array_only (allCharsArray : list ascii)
    (len : Z) (options : Options) (pw : list ascii) (used : gset ascii)
    (draws : list Z) :
  (∀ e rest,
     fillPassword pw allCharsArray len options used draws = Raise e rest →
     e = RanOutOfCharacters ∧ rest = draws
     ∧ allCharsArray = [] ∧ Z.of_nat (length pw) < len)
  ∧ (allCharsArray = [] → Z.of_nat (length pw) < len →
     fillPassword pw allCharsArray len options used draws
     = Raise RanOutOfCharacters draws).
Proof.
  assert (allCharsArray = [] → Z.of_nat (length pw) < len →
          fillPassword pw allCharsArray len options used draws
          = Raise RanOutOfCharacters draws) as Hthrows.
  { intros -> Hshort. rewrite fillPassword_unfold. unfold fillPassword_turn.
    by rewrite bool_decide_eq_true_2 by done. }
  split; [|done]. intros e rest Hraise.
  destruct (decide (allCharsArray = [])) as [Hnil|Hne];
    [|by apply fillPassword_never_raises in Hraise].
  destruct (decide (Z.of_nat (length pw) < len)) as [Hshort|Hlong];
    [|by rewrite fillPassword_exit in Hraise].
  rewrite Hthrows in Hraise by done. by injection Hraise as <- <-.
Qed.

(** X12: seeding throws only its cannot-include error.  A character set
    that is empty makes it fail on every run: no run returns.  With
    noDuplicate unset it throws only if some set is empty. *)
Theorem seeding_fails_on_an_empty_set (options : Options) (pw : list ascii)
    (sets : list string) (used : gset ascii) (draws : list Z) :
  (∀ e rest,
     ensureCharacterTypeInclusion pw sets options used draws = Raise e rest →
     e = CannotIncludeEachType
     ∧ (noDuplicate options = false → ∃ set, set ∈ sets ∧ split set = []))
  ∧ (∀ set, set ∈ sets → split set = [] →
     ∀ pw' used' rest,
       ensureCharacterTypeInclusion pw sets options used draws
       ≠ Ret (pw', used') rest).
Proof.
  split.
  - intros e rest Hraise. split; [by eapply ensure_raises|].
    intros Hdup. revert pw used draws Hraise.
    induction sets as [|set more IH]; intros pw used draws; simpl; [done|].
    rewrite Hdup. case_decide as Hlen.
    { intros _. exists set. split; [by left|]. by apply nil_length_inv. }
    unfold bind.
    destruct (getRandomInt _ draws) as [r rest0|e0 rest0|] eqn:E;
      [|by apply getRandomInt_never_raises in E|done].
    assert (split set ≠ []) as Hne by (intros Hnil; by rewrite Hnil in Hlen).
    destruct (read_sampled _ _ _ _ Hne E) as (_ & c & _ & _ & _ & ->).
    intros (set' & Hin & Hnil)%IH. exists set'. split; [by right|done].
  - intros set Hin Hnil pw' used' rest (seeds & _ & _ & Hseeds)%ensure_returns.
    apply list_elem_of_lookup_1 in Hin as [i Hi].
    destruct (Forall2_lookup_r _ _ _ _ _ Hseeds Hi) as (c & _ & Hc).
    rewrite Hnil in Hc. by apply not_elem_of_nil in Hc.
Qed.

(** ** Entropy as a function of length and array size *)

Lemma calculateEntropy_Fixed (len n : Z) :
  0 ≤ len → 1 ≤ n → calculateEntropy len n = Fixed (roundedBits len n).
Proof. intros. unfold calculateEntropy. repeat case_decide; (done || lia). Qed.

Lemma roundedBits_mono_size (len n m : Z) :
  0 ≤ len → 1 ≤ n ≤ m → roundedBits len n ≤ roundedBits len m.
Proof.
  intros Hlen Hn. unfold roundedBits.
  apply Z.div_le_mono; [lia|]. apply Z.log2_le_mono.
  assert (n ^ (200 * len) ≤ m ^ (200 * len)) by (apply Z.pow_le_mono_l; lia).
  lia.
Qed.

Lemma roundedBits_grows_with_length (len more n : Z) :
  0 ≤ len → 0 ≤ more → 2 ≤ n →
  roundedBits len n + 100 * more ≤ roundedBits (len + more) n.
Proof.
  intros Hlen Hmore Hn. unfold roundedBits.
  assert (0 < n ^ (200 * len)) by (apply Z.pow_pos_nonneg; lia).
  assert (2 ^ (200 * more) ≤ n ^ (200 * more)) by (apply Z.pow_le_mono_l; lia).
  replace (200 * (len + more)) with (200 * len + 200 * more) by lia.
  rewrite Z.pow_add_r by lia.
  assert (Z.log2 (2 * n ^ (200 * len) * 2 ^ (200 * more))
          ≤ Z.log2 (2 * (n ^ (200 * len) * n ^ (200 * more)))) as Hlog.
  { apply Z.log2_le_mono. nia. }
  rewrite Z.log2_mul_pow2 in Hlog by lia.
  etrans; [|apply Z.div_le_mono; [lia|exact Hlog]].
  replace (200 * more + Z.log2 (2 * n ^ (200 * len)))
    with (Z.log2 (2 * n ^ (200 * len)) + 100 * more * 2) by lia.
  rewrite Z.div_add by lia. lia.
Qed.

Lemma roundedBits_8 (len : Z) : 0 ≤ len → roundedBits len 8 = 300 * len.
Proof.
  intros Hlen. unfold roundedBits. change 8 with (2 ^ 3).
  rewrite <- Z.pow_mul_r by lia.
  replace (2 * 2 ^ (3 * (200 * len))) with (2 ^ (600 * len + 1))
    by (rewrite Z.pow_add_r by lia; replace (3 * (200 * len)) with (600 * len) by lia; lia).
  rewrite Z.log2_pow2 by lia.
  replace (600 * len + 1) with (1 + 300 * len * 2) by lia.
  by rewrite Z.div_add by lia.
Qed.

Lemma power_of_91 : 91 ^ 200 ≤ 2 ^ 1302.
Proof. by vm_compute. Qed.

Lemma roundedBits_91 (len : Z) : 0 ≤ len → roundedBits len 91 ≤ 651 * len.
Proof.
  intros Hlen. unfold roundedBits.
  assert (91 ^ (200 * len) ≤ 2 ^ (1302 * len)) as Hpow.
  { rewrite !Z.pow_mul_r by lia. apply Z.pow_le_mono_l.
    split; [by vm_compute|apply power_of_91]. }
  assert (Z.log2 (2 * 91 ^ (200 * len)) ≤ Z.log2 (2 ^ (1302 * len + 1))) as Hlog.
  { apply Z.log2_le_mono. rewrite Z.pow_add_r by lia. lia. }
  rewrite Z.log2_pow2 in Hlog by lia.
  etrans; [apply Z.div_le_mono; [lia|exact Hlog]|].
  replace (1302 * len + 1) with (1 + 651 * len * 2) by lia.
  rewrite Z.div_add by lia. done.
Qed.

(** X13: the entropy shown grows with the length, by at least one bit
    (100 hundredths) for each further character once the array has two
    characters, and never shrinks when the array grows. *)
Theorem entropy_grows_with_length_and_size (len more n m : Z) (h1 h2 h3 : Z)
    (Hlen : 0 ≤ len) (Hmore : 0 ≤ more) (Hn : 2 ≤ n ≤ m)
    (H1 : calculateEntropy len n = Fixed h1)
    (H2 : calculateEntropy (len + more) n = Fixed h2)
    (H3 : calculateEntropy len m = Fixed h3) :
  h1 + 100 * more ≤ h2 ∧ h1 ≤ h3.
Proof.
  rewrite calculateEntropy_Fixed in H1, H2, H3 by lia.
  injection H1 as <-. injection H2 as <-. injection H3 as <-.
  split; [apply roundedBits_grows_with_length; lia|apply roundedBits_mono_size; lia].
Qed.

Lemma entropy_grows_with_length_and_size_witness :
  0 ≤ 8 ∧ 0 ≤ 1 ∧ 2 ≤ 10 ≤ 26
  ∧ calculateEntropy 8 10 = Fixed 2658
  ∧ calculateEntropy (8 + 1) 10 = Fixed 2990
  ∧ calculateEntropy 8 26 = Fixed 3760
  ∧ 2658 + 100 * 1 ≤ 2990 ∧ 2658 ≤ 3760.
Proof.
  assert (0 ≤ 8) as Hlen by lia. assert (0 ≤ 1) as Hmore by lia.
  assert (2 ≤ 10 ≤ 26) as Hn by lia.
  assert (calculateEntropy 8 10 = Fixed 2658) as H1 by (vm_compute; reflexivity).
  assert (calculateEntropy (8 + 1) 10 = Fixed 2990) as H2
    by (vm_compute; reflexivity).
  assert (calculateEntropy 8 26 = Fixed 3760) as H3 by (vm_compute; reflexivity).
  split; [exact Hlen|]. split; [exact Hmore|]. split; [exact Hn|].
  split; [exact H1|]. split; [exact H2|]. split; [exact H3|].
  exact (entropy_grows_with_length_and_size 8 1 10 26 _ _ _
           Hlen Hmore Hn H1 H2 H3).
Defined.

(** X14: for every selection of classes the entropy shown lies between 3
    and 6.51 bits for each character of the requested length (the array
    has between 8 and 91 characters); so every request of 7 characters or
    fewer is labelled "Weak" and every request of 50 or more
    "Unbreakable". *)
Theorem entropy_between_3_and_6_51_bits_a_character (options : Options) (len : Z)
    (Hany : anySelected options = true) (Hlen : 0 ≤ len) :
  let size := Z.of_nat (length (buildAllCharsArray (buildCharacterSets options))) in
  ∃ h, calculateEntropy len size = Fixed h
       ∧ 300 * len ≤ h ≤ 651 * len
       ∧ (len ≤ 7 → label (getPasswordStrength (Fixed h)) = "Weak")
       ∧ (50 ≤ len → label (getPasswordStrength (Fixed h)) = "Unbreakable").
Proof.
  intros size.
  pose proof (buildCharacterSets_sizes options Hany) as (_ & Hsize & _).
  fold size in Hsize. exists (roundedBits len size).
  assert (300 * len ≤ roundedBits len size ≤ 651 * len) as Hh.
  { split.
    - rewrite <- roundedBits_8 by done. apply roundedBits_mono_size; lia.
    - etrans; [|by apply roundedBits_91]. apply roundedBits_mono_size; lia. }
  pose proof (getPasswordStrength_thresholds (roundedBits len size))
    as (Hweak & _ & _ & _ & _ & _ & Hunbreakable).
  split_and!; [apply calculateEntropy_Fixed; lia|lia|lia| |].
  - intros Hshort. apply Hweak. lia.
  - intros Hlong. apply Hunbreakable. lia.
Qed.

Lemma entropy_between_3_and_6_51_bits_a_character_witness :
  anySelected onlyLowercase = true ∧ 0 ≤ 8
  ∧ ∃ h, calculateEntropy 8 26 = Fixed h ∧ 300 * 8 ≤ h ≤ 651 * 8.
Proof.
  assert (0 ≤ 8) as Hlen by lia.
  split; [reflexivity|]. split; [exact Hlen|].
  destruct (entropy_between_3_and_6_51_bits_a_character onlyLowercase 8
              eq_refl Hlen) as (h & Hh & Hbounds & _).
  exists h. split; [exact Hh|exact Hbounds].
Defined.

(** ** The two indicators of the page *)

Lemma label_Weak_iff (h : Z) :
  label (getPasswordStrength (Fixed h)) = "Weak" ↔ h < 5000.
Proof.
  unfold getPasswordStrength, below.
  repeat case_bool_decide; split; intros; (done || lia).
Qed.

Lemma buildAllCharsArray_8_or_10 (options : Options) :
  anySelected options = true →
  length (buildAllCharsArray (buildCharacterSets options)) = 8%nat
  ∨ (10 ≤ length (buildAllCharsArray (buildCharacterSets options)))%nat.
Proof.
  intros Hany.
  each_selection options; ((left; compute_done) || (right; compute_done)).
Qed.

Lemma roundedBits_16_10 : roundedBits 16 10 = 5315.
Proof. by vm_compute. Qed.

(** X15: the slider feedback is "Weak" for the lengths 6 to 15, "Strong"
    for 16 to 60, and empty for every other number (exactly those below
    6 and above 60) and for [NaN].  It does not
    follow the strength label of the passwords: under the feedback
    "Strong" the label is still "Weak" in exactly one case, length 16
    over an array of 8 characters (digits without the similar ones), and
    under the feedback "Weak" the label can be anything up to
    "Strong". *)
Theorem slider_feedback_and_strength_label (options : Options) (len : Z)
    (Hany : anySelected options = true) :
  let size := Z.of_nat (length (buildAllCharsArray (buildCharacterSets options))) in
  let shown := label (getPasswordStrength (calculateEntropy len size)) in
  (getStrengthFeedback (Num len) = "Weak" ↔ 6 ≤ len ≤ 15)
  ∧ (getStrengthFeedback (Num len) = "Strong" ↔ 16 ≤ len ≤ 60)
  ∧ getStrengthFeedback NaN = ""
  ∧ (getStrengthFeedback (Num len) = "Strong" →
     (shown = "Weak" ↔ len = 16 ∧ size = 8))
  ∧ (getStrengthFeedback (Num len) = "Weak" →
     shown ∈ ["Weak"; "Fair"; "Good"; "Strong"])
  ∧ (getStrengthFeedback (Num len) = "" ↔ len < 6 ∨ 60 < len).
Proof.
  intros size shown.
  assert (getStrengthFeedback (Num len) = "" ↔ len < 6 ∨ 60 < len) as Hempty.
  { unfold getStrengthFeedback, JS.ge.
    repeat case_bool_decide; simpl; split; intros; (done || lia). }
  assert (getStrengthFeedback (Num len) = "Weak" ↔ 6 ≤ len ≤ 15) as Hweak.
  { unfold getStrengthFeedback, JS.ge.
    repeat case_bool_decide; simpl; split; intros; (done || lia). }
  assert (getStrengthFeedback (Num len) = "Strong" ↔ 16 ≤ len ≤ 60) as Hstrong.
  { unfold getStrengthFeedback, JS.ge.
    repeat case_bool_decide; simpl; split; intros; (done || lia). }
  pose proof (buildCharacterSets_sizes options Hany) as (_ & Hsize & _).
  fold size in Hsize.
  split_and!; [done|done|done| | |done].
  - intros Hlen%Hstrong. unfold shown.
    rewrite calculateEntropy_Fixed, label_Weak_iff by lia.
    pose proof (roundedBits_8 len ltac:(lia)) as H8.
    pose proof (roundedBits_mono_size len 8 size ltac:(lia) ltac:(lia)) as Hmono.
    split.
    + intros Hlow. assert (len = 16) as -> by lia. split; [done|].
      destruct (buildAllCharsArray_8_or_10 options Hany) as [H|H];
        [unfold size; lia|].
      pose proof (roundedBits_mono_size 16 10 size ltac:(lia)
                    ltac:(unfold size; lia)) as Hten.
      rewrite roundedBits_16_10 in Hten. lia.
    + intros [-> ->]. rewrite roundedBits_8 by lia. lia.
  - intros Hlen%Hweak. unfold shown.
    rewrite calculateEntropy_Fixed by lia.
    pose proof (roundedBits_91 len ltac:(lia)) as H91.
    pose proof (roundedBits_mono_size len size 91 ltac:(lia) ltac:(lia)) as Hmono.
    set (h := roundedBits len size) in *.
    pose proof (getPasswordStrength_thresholds h) as (H1 & H2 & H3 & H4 & _).
    destruct (decide (h < 5000)); [rewrite H1 by done; set_solver|].
    destruct (decide (h < 7000)); [rewrite H2 by lia; set_solver|].
    destruct (decide (h < 9000)); [rewrite H3 by lia; set_solver|].
    rewrite H4 by lia. set_solver.
Qed.

Lemma slider_feedback_and_strength_label_witness :
  anySelected (withNoSimilar onlyNumbers) = true
  ∧ getStrengthFeedback (Num 16) = "Strong"
  ∧ label (getPasswordStrength (calculateEntropy 16 8)) = "Weak".
Proof.
  split; [reflexivity|]. split; [reflexivity|].
  pose proof (slider_feedback_and_strength_label (withNoSimilar onlyNumbers) 16
                eq_refl) as (_ & _ & _ & Hstrong & _).
  apply (Hstrong eq_refl). split; reflexivity.
Defined.

(** ** What the handler shows *)

(** X16: every password that the handler shows, past its two checks, has
    the requested length or one character for each ticked class,
    whichever is more; it is made of characters of the whole array, holds
    a character of every selected class, has no character twice when
    noDuplicate is set, and carries the same entropy and strength label
    as the others. *)
Theorem shown_passwords (len : Z) (options : Options) (page : Page)
    (draws : list Z) (page' : Page) (rest : list Z) (n : Z)
    (Hany : anySelected options = true)
    (Hfits : noDuplicate options
             && bool_decide (Z.of_nat (length (buildAllCharsArray
                  (buildCharacterSets options))) < len) = false)
    (Hclick : onGenerateClick len options page draws = Returned page' rest n) :
  let sets := buildCharacterSets options in
  let all := buildAllCharsArray sets in
  Forall (λ entry,
    let pw := split (passwordText entry) in
    Z.of_nat (length pw) = Z.max len (Z.of_nat (length sets))
    ∧ Forall (λ c, c ∈ all) pw
    ∧ Forall (λ set, ∃ c, c ∈ split set ∧ c ∈ pw) sets
    ∧ (noDuplicate options = true → NoDup pw)
    ∧ entropy entry = calculateEntropy len (Z.of_nat (length all))
    ∧ strengthInfo entry
      = getPasswordStrength (calculateEntropy len (Z.of_nat (length all))))
    (passwords page').
Proof.
  intros sets all.
  destruct (onGenerateClick_returned len options page draws page' rest n
              Hany Hfits Hclick) as (b & HInv & _ & -> & _).
  eapply Forall_impl; [exact (inv_entries _ _ _ _ _ HInv)|].
  intros entry ((draws0 & rest0 & Htry) & Hentropy & Hstrength).
  fold sets all in Htry, Hentropy.
  pose proof (attempt_returns _ _ _ _ _ _ _ Htry) as [Hlen HP].
  pose proof (attempt_shape _ _ _ _ _ _ _ Htry)
    as (seeds & new & Hperm & Hseeds & _ & Hnodup & _).
  split_and!; [done| | | |done|by rewrite Hstrength, Hentropy].
  - apply HP; by apply Forall_forall.
  - assert (∀ c, c ∈ seeds → c ∈ split (passwordText entry)) as Hin.
    { intros c Hc. rewrite Hperm. set_solver. }
    clear -Hseeds Hin.
    induction Hseeds as [|c set seeds0 sets0 Hc _ IH]; [constructor|].
    constructor.
    + exists c. split; [done|]. apply Hin. by left.
    + apply IH. intros c' Hc'. apply Hin. by right.
  - intros Hdup. rewrite Hperm. by apply Hnodup.
Qed.

Lemma shown_passwords_witness :
  ∃ page' rest n,
    anySelected numbersAndLowercase = true
    ∧ onGenerateClick 2 numbersAndLowercase blankPage
        (mjoin ((λ seed, [seed; 0; 0]) <$> [0; 1; 2; 3; 4]))
      = Returned page' rest n
    ∧ Forall (λ entry,
        Z.of_nat (length (split (passwordText entry))) = Z.max 2 2)
        (passwords page').
Proof.
  assert (∃ page' rest n,
            onGenerateClick 2 numbersAndLowercase blankPage
              (mjoin ((λ seed, [seed; 0; 0]) <$> [0; 1; 2; 3; 4]))
            = Returned page' rest n) as (page' & rest & n & Hclick)
    by (eexists _, _, _; vm_compute; reflexivity).
  exists page', rest, n. split; [reflexivity|]. split; [exact Hclick|].
  pose proof (shown_passwords 2 numbersAndLowercase blankPage _ _ _ _
                eq_refl eq_refl Hclick) as Hshown.
  eapply Forall_impl; [exact Hshown|]. intros entry (Hlen & _). exact Hlen.
Defined.

(** X17: which notice a click ends with.  Without a ticked class the
    handler shows the no-types notice; with noDuplicate and a length
    above the size of the array the cannot-generate notice; in both cases
    it draws nothing and leaves the passwords of the earlier click on the
    page.  Otherwise it shows no notice or the not-enough notice, and
    what it returns does not depend on what the page showed before. *)
Theorem notice_of_a_click (len : Z) (options : Options) (page : Page)
    (draws : list Z) (page' : Page) (rest : list Z) (n : Z)
    (Hclick : onGenerateClick len options page draws = Returned page' rest n) :
  let size := Z.of_nat (length (buildAllCharsArray (buildCharacterSets options))) in
  (errorMessage page' = Some NoCharacterTypes ↔ anySelected options = false)
  ∧ (errorMessage page' = Some (CannotGenerateWithoutDuplicates len)
     ↔ anySelected options = true ∧ noDuplicate options = true ∧ size < len)
  ∧ (anySelected options = false ∨ (noDuplicate options = true ∧ size < len) →
     passwords page' = passwords page ∧ rest = draws ∧ n = 0)
  ∧ (anySelected options = true → ¬ (noDuplicate options = true ∧ size < len) →
     (errorMessage page' = None ∨ errorMessage page' = Some NotEnoughUnique)
     ∧ ∀ earlier, onGenerateClick len options earlier draws = Returned page' rest n).
Proof.
  intros size.
  destruct (anySelected options) eqn:Hany.
  - destruct (noDuplicate options && bool_decide (size < len)) eqn:Hfits.
    + apply andb_true_iff in Hfits as Hboth.
      destruct Hboth as [Hdup Hlong%bool_decide_eq_true].
      unfold onGenerateClick in Hclick. fold size in Hclick.
      rewrite Hany, Hfits in Hclick. cbn [negb] in Hclick.
      injection Hclick as <- <- <-.
      cbn [errorMessage passwords displayError clearError].
      clearbody size. clear Hfits.
      split_and!; [split; intros; congruence|tauto|tauto|tauto].
    + assert (¬ (noDuplicate options = true ∧ size < len)) as Hnot.
      { intros [Hdup Hlong]. rewrite Hdup in Hfits.
        by rewrite bool_decide_eq_true_2 in Hfits. }
      pose proof (onGenerateClick_returned len options page draws page' rest n
                    Hany Hfits Hclick) as (b & _ & _ & _ & Hend).
      assert (errorMessage page' = None ∨ errorMessage page' = Some NotEnoughUnique)
        as Hnotice by (destruct Hend as [[_ ?]|(_ & _ & ?)]; auto).
      assert (∀ earlier,
                onGenerateClick len options earlier draws = Returned page' rest n)
        as Hsame.
      { intros earlier. rewrite <- Hclick.
        unfold onGenerateClick. fold size. rewrite Hany, Hfits.
        cbn [negb clearError errorMessage passwords]. reflexivity. }
      clear Hclick Hend Hfits. clearbody size.
      split_and!.
      * split; intros; [destruct Hnotice|]; congruence.
      * split; [intros; destruct Hnotice; congruence|tauto].
      * intros [?|?]; [congruence|tauto].
      * intros _ _. split; [exact Hnotice|exact Hsame].
  - unfold onGenerateClick in Hclick. rewrite Hany in Hclick.
    cbn [negb] in Hclick. injection Hclick as <- <- <-.
    cbn [errorMessage passwords displayError clearError].
    clearbody size.
    split_and!; [tauto|split; [intros; congruence|intros (? & _); congruence]
                |tauto|intros; congruence].
Qed.

Lemma notice_of_a_click_witness :
  onGenerateClick 15 (withNoDuplicate onlyNumbers)
    {| errorMessage := None;
       passwords := [{| passwordText := "0";
                        strengthInfo := getPasswordStrength (Fixed 332);
                        entropy := Fixed 332 |}] |} [4; 8]
  = Returned
      {| errorMessage := Some (CannotGenerateWithoutDuplicates 15);
         passwords := [{| passwordText := "0";
                          strengthInfo := getPasswordStrength (Fixed 332);
                          entropy := Fixed 332 |}] |} [4; 8] 0
  ∧ (anySelected (withNoDuplicate onlyNumbers) = true
     ∧ noDuplicate (withNoDuplicate onlyNumbers) = true ∧ 10 < 15).
Proof.
  refine ((λ Hclick, conj Hclick _) _); [|vm_compute; reflexivity].
  pose proof (notice_of_a_click _ _ _ _ _ _ _ Hclick) as (_ & Hcannot & _).
  apply Hcannot. reflexivity.
Defined.

(** ** The draws that an attempt without restriction takes *)

(** A draw below 2^31 is below the limit of every bound up to 2^31. *)
Lemma getRandomInt_small (b d : Z) (rest : list Z) :
  1 ≤ b ≤ 2 ^ 31 → 0 ≤ d < 2 ^ 31 →
  getRandomInt b (d :: rest) = Ret (Num (d mod b)) rest.
Proof.
  intros Hb Hd. rewrite getRandomInt_step by lia.
  assert (2 ^ 32 - b ≤ maxUint32 / b * b) as Hlim.
  { rewrite <- limit_floor by lia.
    rewrite Z.rem_mod_nonneg by (unfold maxUint32; lia).
    pose proof (Z.mod_pos_bound maxUint32 b ltac:(lia)).
    unfold maxUint32 in *. lia. }
  rewrite Uint32_small by lia. by rewrite bool_decide_eq_false_2 by lia.
Qed.

Lemma read_mod {A} (arr : list A) (d : Z) :
  arr ≠ [] → ∃ c, JS.read arr (Num (d mod Z.of_nat (length arr))) = Some c.
Proof.
  intros Hne.
  assert (0 < Z.of_nat (length arr)) by (destruct arr; simpl in *; [done|lia]).
  pose proof (Z.mod_pos_bound d (Z.of_nat (length arr)) ltac:(lia)).
  rewrite read_Num by lia. apply lookup_lt_is_Some_2. lia.
Qed.

Lemma ensure_cost (options : Options) (sets : list string) (pw : list ascii)
    (used : gset ascii) (draws : list Z) :
  noDuplicate options = false →
  Forall (λ set, 1 ≤ Z.of_nat (length (split set)) ≤ 2 ^ 31) sets →
  Forall (λ d, 0 ≤ d < 2 ^ 31) draws →
  (length sets ≤ length draws)%nat →
  ∃ pw' used',
    ensureCharacterTypeInclusion pw sets options used draws
    = Ret (pw', used') (drop (length sets) draws).
Proof.
  intros Hdup Hsets. revert pw used draws.
  induction Hsets as [|set sets Hset _ IH]; intros pw used draws Hsmall Hlen.
  { by exists pw, used. }
  destruct Hsmall as [|d draws Hd Hsmall]; [simpl in Hlen; lia|].
  simpl. rewrite Hdup. case_decide as Hnil; [lia|].
  erewrite bind_Ret; [|by apply getRandomInt_small].
  destruct (read_mod (split set) d) as [c ->]; [by intros Heq; rewrite Heq in Hnil|].
  apply IH; [done|simpl in Hlen; lia].
Qed.

Lemma fill_cost (allCharsArray : list ascii) (len : Z) (options : Options)
    (n : nat) (pw : list ascii) (used : gset ascii) (draws : list Z) :
  noDuplicate options = false → noSequential options = false →
  1 ≤ Z.of_nat (length allCharsArray) ≤ 2 ^ 31 →
  Forall (λ d, 0 ≤ d < 2 ^ 31) draws →
  n = Z.to_nat (len - Z.of_nat (length pw)) → (n ≤ length draws)%nat →
  ∃ pw' used',
    fillPassword pw allCharsArray len options used draws
    = Ret (pw', used') (drop n draws).
Proof.
  intros Hdup Hseq Hsize. revert pw used draws.
  induction n as [|n IH]; intros pw used draws Hsmall Hn Hlen.
  { exists pw, used. rewrite fillPassword_exit by lia. done. }
  destruct Hsmall as [|d draws Hd Hsmall]; [simpl in Hlen; lia|].
  assert (allCharsArray ≠ []) as Hne by (intros Heq; rewrite Heq in Hsize; simpl in Hsize; lia).
  pose proof (Z.mod_pos_bound d (Z.of_nat (length allCharsArray)) ltac:(lia)) as Hmod.
  destruct (lookup_lt_is_Some_2 allCharsArray
              (Z.to_nat (d mod Z.of_nat (length allCharsArray)))) as [c Hc]; [lia|].
  rewrite (fillPassword_sampled _ _ _ pw used (d :: draws)
             (d mod Z.of_nat (length allCharsArray)) c draws);
    [|lia|by apply getRandomInt_small|lia|done].
  unfold accepted. rewrite Hdup, Hseq. simpl.
  apply IH; [done|rewrite length_app; simpl; lia|simpl in Hlen; lia].
Qed.

Lemma shuffle_cost (i : nat) (pw : list ascii) (draws : list Z) :
  (i < length pw)%nat ∨ i = 0%nat → Z.of_nat i + 1 ≤ 2 ^ 31 →
  Forall (λ d, 0 ≤ d < 2 ^ 31) draws → (i ≤ length draws)%nat →
  ∃ pw', shuffle i pw draws = Ret pw' (drop i draws).
Proof.
  revert pw draws. induction i as [|i IH]; intros pw draws Hi Hmax Hsmall Hlen.
  { by exists pw. }
  destruct Hi as [Hi|?]; [|done].
  destruct Hsmall as [|d draws Hd Hsmall]; [simpl in Hlen; lia|].
  cbn [shuffle]. erewrite bind_Ret; [|apply getRandomInt_small; [lia|done]].
  pose proof (Z.mod_pos_bound d (Z.of_nat (S i) + 1) ltac:(lia)) as Hmod.
  destruct (swap_defined pw (S i) (d mod (Z.of_nat (S i) + 1)))
    as (ci & cj & _ & _ & ->); [done|lia|].
  apply IH; [left; rewrite !length_insert; lia|lia|done|simpl in Hlen; lia].
Qed.

(** X18: without noDuplicate and noSequential, an attempt that is given
    draws below 2^31 only (none of which the sampler redraws) returns
    after exactly [2 * m - 1] of them, [m] being the requested length or
    the number of ticked classes, whichever is more: one draw for each
    character and one for each cell of the shuffle but the first. *)
Theorem unrestricted_attempt_takes_2m_minus_1_draws (options : Options)
    (len : Z) (draws : list Z)
    (Hany : anySelected options = true)
    (Hdup : noDuplicate options = false)
    (Hseq : noSequential options = false)
    (Hlen : len ≤ 2 ^ 31)
    (Hsmall : Forall (λ d, 0 ≤ d < 2 ^ 31) draws) :
  let m := Z.max len (Z.of_nat (length (buildCharacterSets options))) in
  (Z.of_nat (length draws) < 2 * m - 1 → generateOne options len draws = Starved)
  ∧ (2 * m - 1 ≤ Z.of_nat (length draws) →
     ∃ password,
       generateOne options len draws
       = Ret password (drop (Z.to_nat (2 * m - 1)) draws)).
Proof.
  intros m.
  pose proof (buildCharacterSets_sizes options Hany) as (Hsets & Hall & Heach).
  set (sets := buildCharacterSets options) in *.
  set (all := buildAllCharsArray sets) in *.
  assert (m = Z.max len (Z.of_nat (length sets))) as Hm by done.
  clearbody m.
  assert (∀ draws, Forall (λ d, 0 ≤ d < 2 ^ 31) draws →
            2 * m - 1 ≤ Z.of_nat (length draws) →
            ∃ password,
              generateOne options len draws
              = Ret password (drop (Z.to_nat (2 * m - 1)) draws)) as Hruns.
  { clear draws Hsmall. intros draws Hsmall Henough.
    unfold generateOne, attempt. fold sets all.
    destruct (ensure_cost options sets [] ∅ draws Hdup) as (pw0 & used0 & Hseed);
      [eapply Forall_impl; [exact Heach|]; simpl; lia|done|lia|].
    erewrite bind_Ret by exact Hseed. cbn beta iota. rewrite Hdup.
    pose proof (ensure_length _ _ _ _ _ _ _ _ Hseed) as [Hlen0 _]. simpl in Hlen0.
    set (k := length sets) in *.
    set (n := Z.to_nat (len - Z.of_nat (length pw0))).
    destruct (fill_cost all len options n pw0 used0 (drop k draws) Hdup Hseq)
      as (pw1 & used1 & Hfill);
      [lia|by apply Forall_drop|done|rewrite length_drop; lia|].
    erewrite bind_Ret by exact Hfill. cbn beta iota.
    pose proof (fillPassword_returns _ _ _ _ _ _ _ _ _ Hfill) as (_ & _ & _ & Hlen1).
    destruct (shuffle_cost (length pw1 - 1) pw1 (drop n (drop k draws)))
      as (pw2 & Hshuffle);
      [lia|lia|by do 2 apply Forall_drop|rewrite !length_drop; lia|].
    erewrite bind_Ret by exact Hshuffle. exists (join pw2). unfold ret.
    f_equal. rewrite !drop_drop. f_equal. lia. }
  split; [|by apply Hruns].
  intros Hfew.
  set (missing := Z.to_nat (2 * m - 1 - Z.of_nat (length draws))).
  destruct (Hruns (draws ++ replicate missing 0)) as [password Hrun].
  { apply Forall_app. split; [done|]. apply Forall_replicate. lia. }
  { rewrite length_app, length_replicate. lia. }
  destruct (generateOne options len draws) as [pw rest|e rest|] eqn:Hone;
    [|by apply generateOne_never_raises in Hone|done].
  exfalso.
  pose proof (stable_Ret _ _ (replicate missing 0) _ _
                (stable_attempt _ _ _ _) Hone) as Hmore.
  fold (generateOne options len) in Hmore. rewrite Hrun in Hmore.
  injection Hmore as _ Hrest.
  apply (f_equal length) in Hrest.
  rewrite length_drop, !length_app, length_replicate in Hrest. lia.
Qed.

Lemma unrestricted_attempt_takes_2m_minus_1_draws_witness :
  anySelected numbersAndLowercase = true
  ∧ Forall (λ d, 0 ≤ d < 2 ^ 31) [7; 1; 30; 2; 1; 9]
  ∧ ∃ password,
      generateOne numbersAndLowercase 3 [7; 1; 30; 2; 1; 9] = Ret password [9].
Proof.
  assert (Forall (λ d, 0 ≤ d < 2 ^ 31) [7; 1; 30; 2; 1; 9]) as Hsmall
    by (repeat constructor; lia).
  assert (3 ≤ 2 ^ 31) as Hlen by lia.
  split; [reflexivity|]. split; [exact Hsmall|].
  apply (proj2 (unrestricted_attempt_takes_2m_minus_1_draws numbersAndLowercase 3
                  [7; 1; 30; 2; 1; 9] eq_refl eq_refl eq_refl Hlen Hsmall)).
  by vm_compute.
Defined.

(** ** Requests that are never stuck *)

(** The characters of an array without repetition that are not in
    [used] are at least as many as the array has beyond the size of
    [used]. *)
Lemma unused_at_least (arr : list ascii) (used : gset ascii) :
  NoDup arr →
  (length arr ≤ length (filter (λ c, c ∉ used) arr) + size used)%nat.
Proof.
  intros Hnodup.
  pose proof (filter_app_complement (λ c, c ∉ used) arr) as Hperm.
  apply Permutation_length in Hperm. rewrite length_app in Hperm.
  assert (list_to_set (C:=gset ascii) (filter (λ c : ascii, ¬ (c ∉ used)) arr) ⊆ used)
    as Hsub.
  { intros c [Hc _]%elem_of_list_to_set%list_elem_of_filter.
    by destruct (decide (c ∈ used)). }
  apply subseteq_size in Hsub.
  rewrite size_list_to_set in Hsub by by apply NoDup_filter.
  lia.
Qed.

(** With [noDuplicate] set and a length two below the size of the array,
    the filling loop always finds three unused characters, and one of
    them is not sequential to the last character placed. *)
Lemma completes_attempt_with_room (characterSets : list string)
    (allCharsArray : list ascii) (len : Z) (options : Options) :
  noDuplicate options = true →
  NoDup allCharsArray →
  Z.of_nat (length allCharsArray) ≤ maxUint32 →
  Forall (λ set, Z.of_nat (length (split set)) ≤ maxUint32) characterSets →
  Z.of_nat (length characterSets) ≤ maxUint32 →
  len ≤ maxUint32 →
  len + 2 ≤ Z.of_nat (length allCharsArray) →
  completes (attempt characterSets allCharsArray len options).
Proof.
  intros Hdup Hnodup Hsize Hsets Hcount Hlen Hroom. unfold attempt.
  apply (completes_bind _ _ (λ seeded,
    length seeded.1 = length characterSets
    ∧ (size seeded.2 ≤ length seeded.1)%nat));
    [apply stable_ensure|by apply completes_ensure| |].
  { intros draws [pw0 used0] rest Eseed.
    apply ensure_length in Eseed as [Hl Hsz]. rewrite size_empty in Hsz.
    simpl in *. lia. }
  intros [pw0 used0] [Hlen0 Hsize0]. simpl in Hlen0, Hsize0.
  apply (completes_bind _ _ (λ filled,
    Z.of_nat (length filled.1) = Z.max len (Z.of_nat (length pw0))));
    [apply stable_fillPassword| | |].
  - rewrite Hdup.
    apply (fillPassword_completes _ _ _
      (λ pw used, (size used ≤ length pw)%nat ∧ used0 ⊆ used)); [| | |done].
    + etrans; [|exact Hsize]. apply inj_le, length_filter.
    + intros pw used [Hsz Hsub] Hshort.
      pose proof (unused_at_least allCharsArray used Hnodup) as Hleft.
      destruct (not_sequential_exists
                  (filter (λ c, c ∉ used) allCharsArray) pw)
        as (j & c & Hc & Hseq); [by apply NoDup_filter|lia|].
      apply list_elem_of_lookup_2, list_elem_of_filter in Hc as [Hnot Hin].
      assert (c ∈ filter (λ char, char ∉ used0) allCharsArray) as Hfree
        by (apply list_elem_of_filter; set_solver).
      apply list_elem_of_lookup_1 in Hfree as [i Hi]. exists i, c.
      split; [done|]. unfold accepted.
      rewrite Hdup, Hseq, bool_decide_eq_false_2 by done.
      simpl. by rewrite andb_false_r.
    + intros pw used c [Hsz Hsub] _ _. split; [|set_solver].
      rewrite length_app. simpl.
      pose proof (size_union_le {[c]} used) as Hle.
      rewrite size_singleton in Hle. lia.
  - intros draws [pw1 used1] rest Efill.
    by apply fillPassword_returns in Efill as (_ & _ & _ & ?).
  - intros [pw1 used1] Hlen1. simpl in Hlen1.
    apply (completes_bind _ _ (λ _, True));
      [apply stable_shuffle|apply completes_shuffle; unfold maxUint32 in *; lia|done|].
    intros pw2 _. apply completes_ret.
Qed.

(** An attempt of the page is never stuck when the two restrictions are
    not both set, or when the length is two below the size of the
    array. *)
Lemma generateOne_completes_with_room (options : Options) (len : Z) :
  anySelected options = true →
  noDuplicate options && noSequential options = false
  ∨ len + 2 ≤ Z.of_nat (length (buildAllCharsArray (buildCharacterSets options))) →
  len ≤ maxUint32 →
  (noDuplicate options = true →
   len ≤ Z.of_nat (length (buildAllCharsArray (buildCharacterSets options)))) →
  completes (generateOne options len).
Proof.
  intros Hany Hroom Hlen Hfits.
  destruct (noDuplicate options && noSequential options) eqn:Hboth;
    [|by apply generateOne_completes].
  destruct Hroom as [|Hroom]; [done|].
  apply andb_true_iff in Hboth as [Hdup _].
  pose proof (buildCharacterSets_sizes options Hany) as (Hsets & Hall & Heach).
  apply completes_attempt_with_room; try done; unfold maxUint32; try lia.
  - apply buildCharacterSets_separate.
  - eapply Forall_impl; [exact Heach|]. simpl. lia.
Qed.

(** X19: a request is never stuck when noDuplicate and noSequential are
    not both set, or when the length is at least two below the number of
    characters of the array (the length being a 32-bit value): whatever
    has been drawn so far, some finite continuation of the random source
    makes the handler return, after at most 1000 attempts, and makes an
    attempt return its password.  The number of draws this takes has no
    bound: a source that only delivers [0xFFFFFFFF] keeps the sampler
    redrawing, for every bound. *)
Theorem request_ends_with_room_for_the_restrictions (options : Options) (len : Z)
    (Hroom : noDuplicate options && noSequential options = false
             ∨ len + 2 ≤ Z.of_nat (length (buildAllCharsArray
                                            (buildCharacterSets options))))
    (Hlen : len ≤ maxUint32) :
  (∀ page draws, ∃ more page' rest n,
     onGenerateClick len options page (draws ++ more) = Returned page' rest n
     ∧ 0 ≤ n ≤ 1000)
  ∧ (anySelected options = true →
     (noDuplicate options = true →
      len ≤ Z.of_nat (length (buildAllCharsArray (buildCharacterSets options)))) →
     ∀ draws, ∃ more password rest,
       generateOne options len (draws ++ more) = Ret password rest)
  ∧ (∀ b n, 1 ≤ b → getRandomInt b (replicate n 0xFFFFFFFF) = Starved).
Proof.
  split_and!.
  - intros page draws.
    assert (∃ more, onGenerateClick len options page (draws ++ more) ≠ Running)
      as [more Hmore].
    { unfold onGenerateClick.
      destruct (anySelected options) eqn:Hany; cbn [negb]; [|by exists []].
      destruct (noDuplicate options
                && bool_decide (Z.of_nat (length (buildAllCharsArray
                     (buildCharacterSets options))) < len))
        eqn:Hfits; [by exists []|].
      destruct (batchLoop_completes (buildCharacterSets options)
                  (buildAllCharsArray (buildCharacterSets options)) len options
                  1000 {| generatedPasswords := ∅; attempts := 0; shown := [] |}
                  draws)
        as [more Hmore]; [cbn [attempts]; lia| |].
      - apply generateOne_completes_with_room; [done..|].
        intros Hdup. rewrite Hdup in Hfits. cbn [andb] in Hfits.
        apply bool_decide_eq_false in Hfits. lia.
      - exists more.
        by destruct (batchLoop 1000 _ _ len options _ (draws ++ more)). }
    destruct (onGenerateClick len options page (draws ++ more))
      as [page' rest n|] eqn:Hclick; [|done].
    exists more, page', rest, n. split; [done|].
    by eapply onGenerateClick_attempts.
  - intros Hany Hfits draws.
    destruct (generateOne_completes_with_room options len Hany Hroom Hlen Hfits draws)
      as [more Hmore].
    destruct (generateOne options len (draws ++ more))
      as [password rest|e rest|] eqn:Hone;
      [|by apply generateOne_never_raises in Hone|done].
    by exists more, password, rest.
  - intros b n Hb. apply getRandomInt_all_rejected; [done|].
    apply Forall_replicate.
    pose proof (Z.mul_div_le maxUint32 b ltac:(lia)).
    rewrite Uint32_small by (by vm_compute). unfold maxUint32 in *. lia.
Qed.

Lemma request_ends_with_room_for_the_restrictions_witness :
  let options := withNoSequential (withNoDuplicate (withNoSimilar onlyNumbers)) in
  6 + 2 ≤ Z.of_nat (length (buildAllCharsArray (buildCharacterSets options)))
  ∧ 6 ≤ maxUint32
  ∧ ∃ more page' rest n,
      onGenerateClick 6 options blankPage ([2; 3; 5; 2; 4] ++ more)
      = Returned page' rest n ∧ 0 ≤ n ≤ 1000.
Proof.
  intros options.
  assert (6 + 2 ≤ Z.of_nat (length (buildAllCharsArray
                                      (buildCharacterSets options)))) as Hroom
    by (vm_compute; discriminate).
  assert (6 ≤ maxUint32) as Hlen by (unfold maxUint32; lia).
  split_and!; [exact Hroom|exact Hlen|].
  exact (proj1 (request_ends_with_room_for_the_restrictions
                  options 6 (or_intror Hroom) Hlen)
           blankPage [2; 3; 5; 2; 4]).
Defined.
